(** * DeProof: request authentication for remote tool calls

    A shallow embedding of the DeProof generator (client,
    [build/secure-proof.js]) and of the DeProof validator (server,
    [secure-validator.js]) together with the properties their
    specification states about them; and of their callers, the loop
    over the tool calls of the client and the dispatcher and alerts tool
    of the weather server, with what the code shows of them.

    Conventions of the embedding.
    - A JavaScript string is a [string]: a sequence of code units, each
      below 256.
    - A JavaScript number that the protocol counts with (a nonce, a
      millisecond clock reading, an integer leaf of a parameter tree) is
      a [Z]; all of them stay inside the range in which the arithmetic of
      the host is exact on integers.
    - A JavaScript object used as a dictionary is a finite map of its own
      properties ([gmap]); where the order of the properties is observable
      (serialisation) it is the list of its own properties in enumeration
      order.  Names inherited from [Object.prototype] are not part of
      either view.
    - What the host provides (the clock, [Date], Keccak-256, signature
      recovery, the wallet) is a variable of the section that uses it. *)

From Stdlib Require Import ZArith Ascii String QArith Qcanon.
From stdpp Require Import base strings list gmap sorting pretty.

Set Warnings "-register-all".

(** ** JavaScript values and the built-ins the two files call *)

Module JS.

(** A JSON-like value tree, as it arrives in the parameters of a call. *)
Inductive value : Type :=
| VNull
| VBool (b : bool)
| VNum (n : Z)
| VStr (s : string)
| VArr (elems : list value)
| VObj (props : list (string * value)).

(** [!v] is [negb (truthy v)]. *)
Definition truthy (v : value) : bool :=
  match v with
  | VNull => false
  | VBool b => b
  | VNum n => negb (n =? 0)%Z
  | VStr s => negb (String.eqb s EmptyString)
  | VArr _ | VObj _ => true
  end.

(** *** Own properties in enumeration order *)

Definition Object_keys (props : list (string * value)) : list string :=
  map fst props.

(** [obj[key]] on own properties; [None] is [undefined]. *)
Fixpoint prop_get (props : list (string * value)) (key : string)
  : option value :=
  match props with
  | [] => None
  | (k, v) :: rest => if decide (k = key) then Some v else prop_get rest key
  end.

(** [delete obj[key]]. *)
Fixpoint prop_delete (props : list (string * value)) (key : string)
  : list (string * value) :=
  match props with
  | [] => []
  | (k, v) :: rest =>
      if decide (k = key) then prop_delete rest key
      else (k, v) :: prop_delete rest key
  end.

Fixpoint digits_to_N (acc : N) (s : string) : option N :=
  match s with
  | EmptyString => Some acc
  | String c rest =>
      let n := N_of_ascii c in
      if ((48 <=? n) && (n <=? 57))%N
      then digits_to_N (acc * 10 + (n - 48))%N rest
      else None
  end.

(** An array index is the canonical decimal text of an integer between
    0 and 2^32 - 2; such keys are enumerated first, in numeric order. *)
Definition array_index (key : string) : option N :=
  match key with
  | EmptyString => None
  | _ =>
      match digits_to_N 0 key with
      | Some n =>
          if (String.eqb (pretty n) key && (n <? 4294967295)%N)%bool
          then Some n else None
      | None => None
      end
  end.

Fixpoint prop_replace (props : list (string * value)) (key : string)
  (v : value) : list (string * value) :=
  match props with
  | [] => []
  | (k, w) :: rest =>
      if decide (k = key) then (k, v) :: rest
      else (k, w) :: prop_replace rest key v
  end.

Fixpoint prop_insert_index (props : list (string * value)) (i : N)
  (key : string) (v : value) : list (string * value) :=
  match props with
  | [] => [(key, v)]
  | (k, w) :: rest =>
      match array_index k with
      | Some j =>
          if (j <? i)%N then (k, w) :: prop_insert_index rest i key v
          else (key, v) :: (k, w) :: rest
      | None => (key, v) :: (k, w) :: rest
      end
  end.

(** [obj[key] = v]: an existing property keeps its place, a new array
    index goes to its numeric place, any other new key goes last. *)
Definition prop_set (props : list (string * value)) (key : string)
  (v : value) : list (string * value) :=
  match prop_get props key with
  | Some _ => prop_replace props key v
  | None =>
      match array_index key with
      | Some i => prop_insert_index props i key v
      | None => props ++ [(key, v)]
      end
  end.

(** *** Strings *)

Definition dquote : ascii := "034"%char.
Definition backslash : ascii := "092"%char.

Definition hex_digit (n : N) : ascii :=
  if (n <? 10)%N then ascii_of_N (48 + n) else ascii_of_N (87 + n).

(** The escape [JSON.stringify] writes for one code unit. *)
Definition json_escape (c : ascii) : string :=
  let n := N_of_ascii c in
  if (n =? 8)%N then String backslash "b"
  else if (n =? 9)%N then String backslash "t"
  else if (n =? 10)%N then String backslash "n"
  else if (n =? 12)%N then String backslash "f"
  else if (n =? 13)%N then String backslash "r"
  else if (n =? 34)%N then String backslash (String dquote "")
  else if (n =? 92)%N then String backslash (String backslash "")
  else if (n <? 32)%N then
    String backslash
      (String "u" (String "0" (String "0"
        (String (hex_digit (n / 16)) (String (hex_digit (n mod 16)) "")))))
  else String c "".

Fixpoint json_escape_all (s : string) : string :=
  match s with
  | EmptyString => EmptyString
  | String c rest => json_escape c +:+ json_escape_all rest
  end.

Definition json_quote (s : string) : string :=
  String dquote (json_escape_all s +:+ String dquote "").

(** [JSON.stringify(v)] without indentation. *)
Fixpoint JSON_stringify (v : value) : string :=
  match v with
  | VNull => "null"
  | VBool true => "true"
  | VBool false => "false"
  | VNum n => pretty n
  | VStr s => json_quote s
  | VArr elems =>
      "[" +:+ String.concat "," (map JSON_stringify elems) +:+ "]"
  | VObj props =>
      "{" +:+
      String.concat ","
        (map (fun kv => json_quote kv.1 +:+ ":" +:+ JSON_stringify kv.2)
           props)
      +:+ "}"
  end.

(** [s.startsWith(p)]. *)
Fixpoint startsWith (s p : string) : bool :=
  match p, s with
  | EmptyString, _ => true
  | String _ _, EmptyString => false
  | String a p', String b s' => Ascii.eqb a b && startsWith s' p'
  end.

(** [s.slice(2)]. *)
Definition slice2 (s : string) : string :=
  match s with
  | String _ (String _ rest) => rest
  | _ => EmptyString
  end.

(** [toLowerCase] on one code unit: A-Z, and the upper-case letters of
    the Latin-1 block (all of 0xC0-0xDE except the multiplication
    sign). *)
Definition lower_char (c : ascii) : ascii :=
  let n := N_of_ascii c in
  if ((65 <=? n) && (n <=? 90))%N then ascii_of_N (n + 32)
  else if ((192 <=? n) && (n <=? 222) && negb (n =? 215))%N
       then ascii_of_N (n + 32)
  else c.

Fixpoint toLowerCase (s : string) : string :=
  match s with
  | EmptyString => EmptyString
  | String c rest => String (lower_char c) (toLowerCase rest)
  end.

End JS.

Import JS.

(** ** The generator: [build/secure-proof.js] *)

Module SecureProof.

(** [function sortObjectKeys(obj)]: scalars and [null] are returned as
    they are, arrays are mapped, and an object is rebuilt by assigning
    its members in sorted key order to a fresh object.  The members are
    sorted before they are assigned, which keeps the recursion
    structural; [sortObjectKeys_obj] below gives the equation in the
    shape of the source, [acc[key] = sortObjectKeys(obj[key])]. *)
Fixpoint sortObjectKeys (obj : value) : value :=
  match obj with
  | VArr elems => VArr (map sortObjectKeys elems)
  | VObj props =>
      let members := map (fun kv => (kv.1, sortObjectKeys kv.2)) props in
      VObj
        (fold_left
           (fun acc key =>
              match prop_get members key with
              | Some v => prop_set acc key v
              | None => acc
              end)
           (merge_sort String.le (Object_keys props)) [])
  | _ => obj
  end.

Definition canonicalStringify (v : value) : string :=
  let sortedValue := sortObjectKeys v in
  JSON_stringify sortedValue.

(** The module-level [nonceStore]: signer address, then session, then
    the next nonce to hand out. *)
Abbreviation nonceStore := (gmap string (gmap string Z)).

(** [function getAndIncNonce(signerAddress, session)]: the nonce that
    is returned, and the store after the call. *)
Definition getAndIncNonce (store : nonceStore)
  (signerAddress session : string) : Z * nonceStore :=
  let store1 :=
    match store !! signerAddress with
    | None => <[signerAddress := ∅]> store
    | Some _ => store
    end in
  let sessions := default ∅ (store1 !! signerAddress) in
  let sessions1 :=
    match sessions !! session with
    | None => <[session := 0%Z]> sessions
    | Some _ => sessions
    end in
  let currentNonce := default 0%Z (sessions1 !! session) in
  (currentNonce,
   <[signerAddress := <[session := (currentNonce + 1)%Z]> sessions1]> store1).

(** The wallet of the signing library: its address and its
    personal-message signature of a byte string. *)
Record Wallet := {
  address : string;
  signMessage : string → string;
}.

Section Generator.
(** [keccak256(Buffer.from(text))], as the hex text the library
    returns. *)
Variable keccak256 : string → string.
(** [Buffer.from(hex, "hex")]. *)
Variable Buffer_from_hex : string → string.

(** [async function generateDeProof(params, wallet, currentSession)].
    [fresh] is what [randomUUID()] would return and [nowISO] is
    [new Date().toISOString()] at the call. *)
Definition generateDeProof (store : nonceStore) (fresh nowISO : string)
  (params : value) (wallet : Wallet) (currentSession : option string)
  : value * nonceStore :=
  let session := default fresh currentSession in
  let timestamp := nowISO in
  let '(nonce, store') := getAndIncNonce store (address wallet) session in
  let dataToSign :=
    VObj [("params", params); ("nonce", VNum nonce);
          ("session", VStr session); ("timestamp", VStr timestamp)] in
  let serializedData := canonicalStringify dataToSign in
  let digest := keccak256 serializedData in
  let digestWithoutPrefix :=
    if startsWith digest "0x" then slice2 digest else digest in
  let messageBytes := Buffer_from_hex digestWithoutPrefix in
  let signature := signMessage wallet messageBytes in
  let signatureWithoutPrefix :=
    if startsWith signature "0x" then slice2 signature else signature in
  (VObj [("signerAddress", VStr (address wallet));
         ("nonce", VNum nonce);
         ("session", VStr session);
         ("timestamp", VStr timestamp);
         ("digest", VStr digestWithoutPrefix);
         ("signature", VStr signatureWithoutPrefix)],
   store').
End Generator.

End SecureProof.

(** ** The validator: [secure-validator.js] *)

Module SecureValidator.

(** *** The nonce store *)

(** What the validator asks of a nonce store.  Both calls are
    asynchronous and may fail: [None] is a rejected promise. *)
Class NonceStore (S : Type) := {
  getExpectedNonce : S → string → string → option Z;
  incrementAndSetNonce : S → string → string → Z → option S;
}.

(** [class InMemoryNonceStore]: signer address, then session, then the
    next expected nonce. *)
Module InMemoryNonceStore.
Abbreviation store := (gmap string (gmap string Z)).

Definition getExpectedNonce (this : store)
  (signerAddress session : string) : Z :=
  match this !! signerAddress with
  | Some sessions =>
      match sessions !! session with
      | Some n => n
      | None => 0%Z
      end
  | None => 0%Z
  end.

Definition incrementAndSetNonce (this : store)
  (signerAddress session : string) (validatedNonce : Z) : store :=
  let this1 :=
    match this !! signerAddress with
    | None => <[signerAddress := ∅]> this
    | Some _ => this
    end in
  <[signerAddress :=
      <[session := (validatedNonce + 1)%Z]>
        (default ∅ (this1 !! signerAddress))]> this1.
End InMemoryNonceStore.

#[export] Instance InMemory_NonceStore
  : NonceStore InMemoryNonceStore.store := {|
  getExpectedNonce this a s :=
    Some (InMemoryNonceStore.getExpectedNonce this a s);
  incrementAndSetNonce this a s n :=
    Some (InMemoryNonceStore.incrementAndSetNonce this a s n);
|}.

(** *** Rejections *)

(** The [{ code, message }] objects the validator returns, one
    constructor for each [return] of the function. *)
Inductive ErrorResponse : Type :=
| MissingProof
| TimestampOutOfRange
| TimestampInvalidFormat
| NonceMismatch (received : option value) (expected : Z)
| NonceStoreUnavailable
| DigestMismatch
| SignatureAddressMismatch
| SignatureException
| NonceUpdateFailed
| ValidationException.

Definition code (e : ErrorResponse) : Z :=
  match e with
  | MissingProof => -32602
  | TimestampOutOfRange => -32001
  | TimestampInvalidFormat => -32002
  | NonceMismatch _ _ => -32003
  | NonceStoreUnavailable => -32000
  | DigestMismatch => -32005
  | SignatureAddressMismatch => -32006
  | SignatureException => -32007
  | NonceUpdateFailed => -32000
  | ValidationException => -32000
  end.

(** *** Control flow of one stage

    A block of the function either falls through to the next block,
    executes a [return], or throws. *)
Inductive flow (A : Type) : Type :=
| Pass (a : A)
| Return (e : ErrorResponse)
| Throw.
Arguments Pass {A} a.
Arguments Return {A} e.
Arguments Throw {A}.

#[export] Instance flow_ret : MRet flow := @Pass.
#[export] Instance flow_bind : MBind flow := λ A B k m,
  match m with
  | Pass a => k a
  | Return e => Return e
  | Throw => Throw
  end.

(** [try { m } catch (error) { return e }]. *)
Definition try_catch {A} (m : flow A) (e : ErrorResponse) : flow A :=
  match m with
  | Throw => Return e
  | _ => m
  end.

(** The request object handed to the validator; only [params] is
    read. *)
Record Request := { params : value }.

(** [o.name] for one of the six field names of a proof; [None] is
    [undefined]. *)
Definition field (o : value) (name : string) : option value :=
  match o with
  | VObj props => prop_get props name
  | _ => None
  end.

(** The calls a validation makes on the nonce store, in order. *)
Inductive store_call : Type :=
| CallGetExpectedNonce (signerAddress session : string)
| CallIncrementAndSetNonce (signerAddress session : string) (nonce : Z).

(** A time value: [NaN] or a number of milliseconds. *)
Inductive time_value : Type :=
| NaN
| Ms (t : Z).

Definition TIME_TOLERANCE_SECONDS : Z := 60.

(** [Math.abs(currentTimestamp - requestTimestamp) / 1000]; [None] is
    [NaN]. *)
Definition diffSeconds (currentTimestamp : Z) (requestTimestamp : time_value)
  : option Qc :=
  match requestTimestamp with
  | NaN => None
  | Ms t => Some (Qc_of_Z (Z.abs (currentTimestamp - t)) / Qc_of_Z 1000)%Qc
  end.

(** [diffSeconds > TIME_TOLERANCE_SECONDS]; every comparison with [NaN]
    is false. *)
Definition exceeds_tolerance (d : option Qc) : bool :=
  match d with
  | None => false
  | Some q => bool_decide (Qc_of_Z TIME_TOLERANCE_SECONDS < q)%Qc
  end.

(** [deProof.nonce !== expectedNonce]. *)
Definition nonce_differs (received : option value) (expectedNonce : Z)
  : bool :=
  match received with
  | Some (VNum n) => negb (n =? expectedNonce)%Z
  | _ => true
  end.

(** [s.startsWith("0x") ? s.slice(2) : s]. *)
Definition strip0x (s : string) : string :=
  if startsWith s "0x" then slice2 s else s.

(** [function sortObjectKeys(obj)], declared inside [validateDeProof]. *)
Fixpoint sortObjectKeys (obj : value) : value :=
  match obj with
  | VArr elems => VArr (map sortObjectKeys elems)
  | VObj props =>
      let members := map (fun kv => (kv.1, sortObjectKeys kv.2)) props in
      VObj
        (fold_left
           (fun acc key =>
              match prop_get members key with
              | Some v => prop_set acc key v
              | None => acc
              end)
           (merge_sort String.le (Object_keys props)) [])
  | _ => obj
  end.

Definition canonicalStringify (v : value) : string :=
  let sortedValue := sortObjectKeys v in
  JSON_stringify sortedValue.

(** A property of an object literal whose value may be [undefined]:
    [JSON.stringify] leaves such a property out. *)
Definition literal_prop (name : string) (v : option value)
  : list (string * value) :=
  match v with
  | Some w => [(name, w)]
  | None => []
  end.

Section Validator.
Context {S : Type} `{NonceStore S}.

(** [new Date(v).getTime()] on a field of the proof. *)
Variable Date_getTime : option value → time_value.
(** [ethers.utils.keccak256(Buffer.from(text))]. *)
Variable keccak256 : string → string.
(** [Buffer.from(hex, "hex")]. *)
Variable Buffer_from_hex : string → string.
(** [ethers.utils.verifyMessage(bytes, signatureHex)]; [None] when it
    throws. *)
Variable verifyMessage : string → string → option string.

(** Stage 1: the request must carry a [_deProof].  Reading
    [params._deProof] throws when [params] is [null]; on anything
    that is not an object the property is [undefined]. *)
Definition presenceCheck (request : Request)
  : flow (list (string * value) * value) :=
  match params request with
  | VNull => Throw
  | VObj props =>
      match prop_get props "_deProof" with
      | Some deProof =>
          if truthy deProof then Pass (props, deProof)
          else Return MissingProof
      | None => Return MissingProof
      end
  | _ => Return MissingProof
  end.

(** The log line between stage 1 and stage 2 takes [substring] of the
    signer address and of the session. *)
Definition logReceived (deProof : value) : flow (string * string) :=
  match field deProof "signerAddress", field deProof "session" with
  | Some (VStr signerAddress), Some (VStr session) =>
      Pass (signerAddress, session)
  | _, _ => Throw
  end.

(** Stage 2: the timestamp, with its tolerance of 60 seconds. *)
Definition timestampCheck (deProof : value) (currentTimestamp : Z)
  : flow unit :=
  try_catch
    (let requestTimestamp := Date_getTime (field deProof "timestamp") in
     let diffSeconds := diffSeconds currentTimestamp requestTimestamp in
     if exceeds_tolerance diffSeconds then Return TimestampOutOfRange
     else Pass tt)
    TimestampInvalidFormat.

(** Stage 3: the nonce must be the one the store expects. *)
Definition nonceCheck (nonceStore : S) (deProof : value)
  (signerAddress session : string) : flow Z :=
  try_catch
    (match getExpectedNonce nonceStore signerAddress session with
     | Some expectedNonce =>
         if nonce_differs (field deProof "nonce") expectedNonce
         then Return (NonceMismatch (field deProof "nonce") expectedNonce)
         else Pass expectedNonce (* which [deProof.nonce] is *)
     | None => Throw
     end)
    NonceStoreUnavailable.

(** Stage 4: the digest of the request is computed again and compared
    with the declared one. *)
Definition digestCheck (p : list (string * value)) (deProof : value)
  (nonce : Z) (session : string) : flow string :=
  let actualParams := prop_delete p "_deProof" in
  let dataToVerify :=
    VObj ([("params", VObj actualParams); ("nonce", VNum nonce);
           ("session", VStr session)]
          ++ literal_prop "timestamp" (field deProof "timestamp")) in
  let serializedData := canonicalStringify dataToVerify in
  let calculatedDigest := keccak256 serializedData in
  let calculatedDigestWithoutPrefix := strip0x calculatedDigest in
  match field deProof "digest" with
  | Some (VStr digest) =>
      let clientDigest := strip0x digest in
      if negb (String.eqb calculatedDigestWithoutPrefix clientDigest)
      then Return DigestMismatch
      else Pass clientDigest
  | _ => Throw
  end.

(** Stage 5: the signer recovered from the signature must be the
    declared one. *)
Definition signatureCheck (deProof : value) (clientDigest : string)
  (signerAddress : string) : flow unit :=
  try_catch
    (match field deProof "signature" with
     | Some (VStr signature) =>
         let signatureHex :=
           if startsWith signature "0x" then signature
           else "0x" +:+ signature in
         let messageBytesThatWereSigned := Buffer_from_hex clientDigest in
         match verifyMessage messageBytesThatWereSigned signatureHex with
         | Some recoveredAddress =>
             if negb (String.eqb (toLowerCase recoveredAddress)
                                 (toLowerCase signerAddress))
             then Return SignatureAddressMismatch
             else Pass tt
         | None => Throw
         end
     | _ => Throw
     end)
    SignatureException.

(** Stages 1 and 2, which do not touch the store. *)
Definition checksBeforeStore (request : Request) (currentTimestamp : Z)
  : flow (list (string * value) * value * string * string) :=
  '(p, deProof) ← presenceCheck request;
  '(signerAddress, session) ← logReceived deProof;
  _ ← timestampCheck deProof currentTimestamp;
  mret (p, deProof, signerAddress, session).

(** Stages 3 to 5. *)
Definition checksFromStore (nonceStore : S) (p : list (string * value))
  (deProof : value) (signerAddress session : string)
  : flow (string * string * Z) :=
  nonce ← nonceCheck nonceStore deProof signerAddress session;
  clientDigest ← digestCheck p deProof nonce session;
  _ ← signatureCheck deProof clientDigest signerAddress;
  mret (signerAddress, session, nonce).

(** Stages 1 to 5, with the calls made on the store on the way. *)
Definition checks (request : Request) (currentTimestamp : Z)
  (nonceStore : S) : list store_call * flow (string * string * Z) :=
  match checksBeforeStore request currentTimestamp with
  | Pass (p, deProof, signerAddress, session) =>
      ([CallGetExpectedNonce signerAddress session],
       checksFromStore nonceStore p deProof signerAddress session)
  | Return e => ([], Return e)
  | Throw => ([], Throw)
  end.

(** What a validation leaves behind: the value it returns ([None] is
    [null], the request is accepted), the store, and the calls it
    made on the store. *)
Record Outcome := {
  verdict : option ErrorResponse;
  store_after : S;
  store_calls : list store_call;
}.

(** [async function validateDeProof(request, nonceStore, timeoutMs)],
    called when the clock reads [currentTimestamp].  The function
    never reads [timeoutMs].  A call of [incrementAndSetNonce] that
    fails is taken to leave the store as it was. *)
Definition validateDeProof (request : Request) (currentTimestamp : Z)
  (nonceStore : S) : Outcome :=
  let '(calls, result) := checks request currentTimestamp nonceStore in
  match result with
  | Pass (signerAddress, session, nonce) =>
      (* Stage 6: the store advances. *)
      match incrementAndSetNonce nonceStore signerAddress session nonce with
      | Some nonceStore' =>
          {| verdict := None;
             store_after := nonceStore';
             store_calls :=
               calls ++ [CallIncrementAndSetNonce signerAddress session nonce] |}
      | None =>
          {| verdict := Some NonceUpdateFailed;
             store_after := nonceStore;
             store_calls :=
               calls ++ [CallIncrementAndSetNonce signerAddress session nonce] |}
      end
  | Return e =>
      {| verdict := Some e; store_after := nonceStore; store_calls := calls |}
  | Throw =>
      {| verdict := Some ValidationException;
         store_after := nonceStore; store_calls := calls |}
  end.
End Validator.

End SecureValidator.

Import SecureValidator.

(** ** The host libraries, for the examples

    The validator and the generator are written over whatever the host
    provides.  The examples run them with the definitions below. *)

(** Hexadecimal text. *)
Module Hex.
Local Open Scope Z_scope.

Definition digit (n : Z) : ascii :=
  ascii_of_N (Z.to_N (if n <? 10 then 48 + n else 87 + n)).

(** Lower-case hexadecimal text of a list of bytes. *)
Fixpoint encode (bytes : list Z) : string :=
  match bytes with
  | [] => EmptyString
  | b :: rest =>
      String (digit (b / 16)) (String (digit (b mod 16)) (encode rest))
  end.

Definition value_of (c : ascii) : option Z :=
  let n := Z.of_N (N_of_ascii c) in
  if (48 <=? n) && (n <=? 57) then Some (n - 48)
  else if (97 <=? n) && (n <=? 102) then Some (n - 87)
  else if (65 <=? n) && (n <=? 70) then Some (n - 55)
  else None.

(** The bytes a hexadecimal text denotes, in either letter case;
    [None] when the text is not hexadecimal. *)
Fixpoint decode (s : string) : option (list Z) :=
  match s with
  | EmptyString => Some []
  | String a (String b rest) =>
      match value_of a, value_of b, decode rest with
      | Some x, Some y, Some bytes => Some (16 * x + y :: bytes)
      | _, _, _ => None
      end
  | String _ EmptyString => None
  end.

(** The bytes a digest text denotes, with or without a leading
    [0x]. *)
Definition denotes (s : string) : option (list Z) :=
  decode (if startsWith s "0x" then slice2 s else s).

(** [Buffer.from(s, "hex")]: decoding stops at the first pair that is
    not hexadecimal. *)
Fixpoint Buffer_from_hex (s : string) : string :=
  match s with
  | String a (String b rest) =>
      match value_of a, value_of b with
      | Some x, Some y =>
          String (ascii_of_N (Z.to_N (16 * x + y))) (Buffer_from_hex rest)
      | _, _ => EmptyString
      end
  | _ => EmptyString
  end.

Fixpoint bytes_of (s : string) : list Z :=
  match s with
  | EmptyString => []
  | String c rest => Z.of_N (N_of_ascii c) :: bytes_of rest
  end.
End Hex.

(** Keccak-256, as the signing library computes it. *)
Module Keccak.
Local Open Scope Z_scope.

Definition w64 (x : Z) : Z := Z.land x (2 ^ 64 - 1).

Definition rotl (x n : Z) : Z :=
  w64 (Z.lor (Z.shiftl x n) (Z.shiftr x (64 - n))).

Definition RC : list Z :=
  [0x0000000000000001; 0x0000000000008082; 0x800000000000808A;
   0x8000000080008000; 0x000000000000808B; 0x0000000080000001;
   0x8000000080008081; 0x8000000000008009; 0x000000000000008A;
   0x0000000000000088; 0x0000000080008009; 0x000000008000000A;
   0x000000008000808B; 0x800000000000008B; 0x8000000000008089;
   0x8000000000008003; 0x8000000000008002; 0x8000000000000080;
   0x000000000000800A; 0x800000008000000A; 0x8000000080008081;
   0x8000000000008080; 0x0000000080000001; 0x8000000080008008].

(** Rotation offsets, lane [(x, y)] at position [x + 5 * y]. *)
Definition offsets : list Z :=
  [ 0;  1; 62; 28; 27;
   36; 44;  6; 55; 20;
    3; 10; 43; 25; 39;
   41; 45; 15; 21;  8;
   18;  2; 61; 56; 14].

Definition lane (A : list Z) (x y : nat) : Z :=
  nth (x mod 5 + 5 * (y mod 5))%nat A 0.

Definition lanes (f : nat → nat → Z) : list Z :=
  map (λ i, f (i mod 5)%nat (i / 5)%nat) (seq 0 25).

Definition theta (A : list Z) : list Z :=
  let C x :=
    Z.lxor (lane A x 0)
      (Z.lxor (lane A x 1)
         (Z.lxor (lane A x 2) (Z.lxor (lane A x 3) (lane A x 4)))) in
  let D x := Z.lxor (C (x + 4)%nat) (rotl (C (x + 1)%nat) 1) in
  lanes (λ x y, Z.lxor (lane A x y) (D x)).

Definition rho_pi (A : list Z) : list Z :=
  lanes (λ X Y,
    let x := ((X + 3 * Y) mod 5)%nat in
    let y := X in
    rotl (lane A x y) (nth (x + 5 * y)%nat offsets 0)).

Definition chi (B : list Z) : list Z :=
  lanes (λ x y,
    Z.lxor (lane B x y)
      (Z.land (Z.lxor (lane B (x + 1) y) (2 ^ 64 - 1)) (lane B (x + 2) y))).

Definition iota (rc : Z) (A : list Z) : list Z :=
  match A with
  | a :: rest => Z.lxor a rc :: rest
  | [] => []
  end.

Definition round (A : list Z) (rc : Z) : list Z :=
  iota rc (chi (rho_pi (theta A))).

Definition f1600 (A : list Z) : list Z := fold_left round RC A.

Definition rate : nat := 136.

(** Little-endian lanes of one block of [rate] bytes. *)
Fixpoint le_lanes (n : nat) (bytes : list Z) : list Z :=
  match n with
  | O => []
  | Datatypes.S n' =>
      fold_right (λ b acc, b + 256 * acc) 0 (take 8 bytes)
      :: le_lanes n' (drop 8 bytes)
  end.

Definition absorb (A : list Z) (block : list Z) : list Z :=
  f1600 (zip_with Z.lxor A (le_lanes 17 block ++ replicate 8 0)).

(** The padding of Keccak: a one bit, zeros, and a closing one bit. *)
Definition pad (bytes : list Z) : list Z :=
  let q := (rate - length bytes mod rate)%nat in
  if decide (q = 1%nat) then bytes ++ [0x81]
  else bytes ++ [0x01] ++ replicate (q - 2) 0 ++ [0x80].

Fixpoint absorb_all (fuel : nat) (A : list Z) (bytes : list Z) : list Z :=
  match fuel with
  | O => A
  | Datatypes.S fuel' =>
      match bytes with
      | [] => A
      | _ => absorb_all fuel' (absorb A (take rate bytes)) (drop rate bytes)
      end
  end.

Fixpoint le_bytes (n : nat) (x : Z) : list Z :=
  match n with
  | O => []
  | Datatypes.S n' => x mod 256 :: le_bytes n' (x / 256)
  end.

(** The 32 bytes of Keccak-256. *)
Definition keccak256_bytes (bytes : list Z) : list Z :=
  let padded := pad bytes in
  let A := absorb_all (length padded) (replicate 25 0) padded in
  flat_map (le_bytes 8) (take 4 A).

(** [Buffer.from(text)]: the UTF-8 bytes of a text of code units below
    256. *)
Fixpoint utf8 (s : string) : list Z :=
  match s with
  | EmptyString => []
  | String c rest =>
      let n := Z.of_N (N_of_ascii c) in
      if n <? 128 then n :: utf8 rest
      else (192 + n / 64) :: (128 + n mod 64) :: utf8 rest
  end.

(** [keccak256(Buffer.from(text))] as the library prints it. *)
Definition keccak256 (text : string) : string :=
  "0x" +:+ Hex.encode (keccak256_bytes (utf8 text)).
End Keccak.

(** [Date]: the instant of a text in the format [toISOString] writes,
    [YYYY-MM-DDTHH:mm:ss.sssZ].  Any other text is not a date. *)
Module ISODate.
Local Open Scope Z_scope.

Definition decimal_digit (c : ascii) : option Z :=
  let n := Z.of_N (N_of_ascii c) in
  if (48 <=? n) && (n <=? 57) then Some (n - 48) else None.

Fixpoint number (acc : Z) (s : string) : option Z :=
  match s with
  | EmptyString => Some acc
  | String c rest =>
      match decimal_digit c with
      | Some d => number (10 * acc + d) rest
      | None => None
      end
  end.

Definition leap (y : Z) : bool :=
  ((y mod 4 =? 0) && negb (y mod 100 =? 0)) || (y mod 400 =? 0).

Definition days_in_month (y m : Z) : Z :=
  if m =? 2 then (if leap y then 29 else 28)
  else if (m =? 4) || (m =? 6) || (m =? 9) || (m =? 11) then 30
  else 31.

(** Days from 1970-01-01 to the given civil date. *)
Definition days_from_civil (y m d : Z) : Z :=
  let y' := if m <=? 2 then y - 1 else y in
  let era := y' / 400 in
  let yoe := y' - era * 400 in
  let doy := (153 * (if 2 <? m then m - 3 else m + 9) + 2) / 5 + d - 1 in
  let doe := yoe * 365 + yoe / 4 - yoe / 100 + doy in
  era * 146097 + doe - 719468.

Definition sub (s : string) (from len : nat) : string :=
  String.substring from len s.

Definition parse (s : string) : option Z :=
  if negb (String.length s =? 24)%nat then None
  else if negb (String.eqb (sub s 4 1) "-" && String.eqb (sub s 7 1) "-"
                && String.eqb (sub s 10 1) "T" && String.eqb (sub s 13 1) ":"
                && String.eqb (sub s 16 1) ":" && String.eqb (sub s 19 1) "."
                && String.eqb (sub s 23 1) "Z")
  then None
  else
    match number 0 (sub s 0 4), number 0 (sub s 5 2), number 0 (sub s 8 2),
          number 0 (sub s 11 2), number 0 (sub s 14 2),
          number 0 (sub s 17 2), number 0 (sub s 20 3) with
    | Some y, Some m, Some d, Some hh, Some mm, Some ss, Some ms =>
        if (1 <=? m) && (m <=? 12) && (1 <=? d) && (d <=? days_in_month y m)
           && (hh <=? 23) && (mm <=? 59) && (ss <=? 59)
        then Some ((((days_from_civil y m d * 24 + hh) * 60 + mm) * 60 + ss)
                   * 1000 + ms)
        else None
    | _, _, _, _, _, _, _ => None
    end.

(** [new Date(v).getTime()] where [v] is a text or is missing. *)
Definition getTime (v : option value) : time_value :=
  match v with
  | Some (VStr s) =>
      match parse s with
      | Some t => Ms t
      | None => NaN
      end
  | _ => NaN
  end.
End ISODate.

(** A stand-in for the signature scheme: the signature of a message is
    the hexadecimal text of the signer's address followed by the
    message, and recovery reads the address back, failing on a text that
    is not of this shape. *)
Module Signer.
Definition sign (address : string) (message : string) : string :=
  "0x" +:+ Hex.encode (Hex.bytes_of address)
       +:+ Hex.encode (Hex.bytes_of message).

Fixpoint text_of (bytes : list Z) : string :=
  match bytes with
  | [] => EmptyString
  | b :: rest => String (ascii_of_N (Z.to_N b)) (text_of rest)
  end.

Definition verifyMessage (message signatureHex : string) : option string :=
  if negb (startsWith signatureHex "0x") then None
  else
    match Hex.decode (slice2 signatureHex) with
    | Some bytes =>
        let n := (length bytes - String.length message)%nat in
        if decide (String.length message ≤ length bytes
                   ∧ text_of (drop n bytes) = message)
        then Some (text_of (take n bytes))
        else None
    | None => None
    end.

Definition wallet (address : string) : SecureProof.Wallet :=
  {| SecureProof.address := address;
     SecureProof.signMessage := sign address |}.
End Signer.

(** ** The client's call site *)

Module Client.
(** [{ ...deProofGenArgs, _deProof: deProof }], where [deProofGenArgs]
    is the tool arguments without any [_deProof] of their own. *)
Definition secureArgs (rawToolArgs : list (string * value)) (deProof : value)
  : list (string * value) :=
  let deProofGenArgs := prop_delete rawToolArgs "_deProof" in
  prop_set deProofGenArgs "_deProof" deProof.
End Client.

(** ** Vocabulary of the specification *)

(** Two parameter trees are the same tree up to the order in which the
    members of their objects were inserted: scalars are equal, sequences
    agree element by element, and two objects have the same keys, each
    once, with values that are again the same up to insertion order. *)
Inductive reordered : value → value → Prop :=
| reordered_null : reordered VNull VNull
| reordered_bool b : reordered (VBool b) (VBool b)
| reordered_num n : reordered (VNum n) (VNum n)
| reordered_str s : reordered (VStr s) (VStr s)
| reordered_arr_nil : reordered (VArr []) (VArr [])
| reordered_arr_cons x y xs ys :
    reordered x y →
    reordered (VArr xs) (VArr ys) →
    reordered (VArr (x :: xs)) (VArr (y :: ys))
| reordered_obj m n :
    NoDup (Object_keys m) →
    Object_keys m ≡ₚ Object_keys n →
    (∀ k v w, prop_get m k = Some v → prop_get n k = Some w → reordered v w) →
    reordered (VObj m) (VObj n).

(** A tree of objects as the language has them: within one object no
    key occurs twice. *)
Fixpoint well_formed (v : value) : Prop :=
  match v with
  | VArr elems =>
      (fix all (l : list value) : Prop :=
         match l with
         | [] => True
         | x :: rest => well_formed x ∧ all rest
         end) elems
  | VObj props =>
      NoDup (Object_keys props) ∧
      (fix all (l : list (string * value)) : Prop :=
         match l with
         | [] => True
         | kv :: rest => well_formed kv.2 ∧ all rest
         end) props
  | _ => True
  end.

(** The proof object a request carries, if any. *)
Definition proof_of (request : Request) : option value :=
  match params request with
  | VObj props => prop_get props "_deProof"
  | _ => None
  end.

(** The request carries a proof that declares signer [a], session [s]
    and nonce [n]. *)
Definition presents (request : Request) (a s : string) (n : Z)
  : Prop :=
  ∃ deProof,
    proof_of request = Some deProof ∧
    field deProof "signerAddress" = Some (VStr a) ∧
    field deProof "session" = Some (VStr s) ∧
    field deProof "nonce" = Some (VNum n).

(** The six fields of a proof, each of the type the protocol gives it. *)
Definition well_typed_proof (deProof : value) : Prop :=
  ∃ a n s t d g,
    field deProof "signerAddress" = Some (VStr a) ∧
    field deProof "nonce" = Some (VNum n) ∧
    field deProof "session" = Some (VStr s) ∧
    field deProof "timestamp" = Some (VStr t) ∧
    field deProof "digest" = Some (VStr d) ∧
    field deProof "signature" = Some (VStr g).

(** No nonce was ever recorded for the pair. *)
Definition unseen (store : gmap string (gmap string Z)) (a s : string) : Prop :=
  ∀ sessions, store !! a = Some sessions → sessions !! s = None.

Section Runs.
Variable Date_getTime : option value → time_value.
Variable keccak256 : string → string.
Variable Buffer_from_hex : string → string.
Variable verifyMessage : string → string → option string.

(** A series of validation attempts against the in-memory store, each
    with the reading of the clock at which it is made. *)
Fixpoint validate_all (store : InMemoryNonceStore.store)
  (attempts : list (Request * Z))
  : InMemoryNonceStore.store :=
  match attempts with
  | [] => store
  | (request, currentTimestamp) :: rest =>
      validate_all
        (store_after
           (validateDeProof Date_getTime keccak256
              Buffer_from_hex verifyMessage request currentTimestamp store))
        rest
  end.
End Runs.

(** One call of [generateDeProof]. *)
Record Generation := {
  gen_fresh : string;
  gen_now : string;
  gen_params : value;
  gen_wallet : SecureProof.Wallet;
  gen_session : option string;
}.

(** The pair under which a call counts its nonce. *)
Definition gen_pair (g : Generation) : string * string :=
  (SecureProof.address (gen_wallet g), default (gen_fresh g) (gen_session g)).

Section Generations.
Variable keccak256 : string → string.
Variable Buffer_from_hex : string → string.

(** The proofs of a series of calls, in order. *)
Fixpoint generate_all (store : gmap string (gmap string Z))
  (calls : list Generation) : list value :=
  match calls with
  | [] => []
  | g :: rest =>
      let '(deProof, store') :=
        SecureProof.generateDeProof keccak256 Buffer_from_hex store
          (gen_fresh g) (gen_now g) (gen_params g) (gen_wallet g)
          (gen_session g) in
      deProof :: generate_all store' rest
  end.
End Generations.

(** How many of the first [i] calls count under the pair [p]. *)
Definition earlier_calls (calls : list Generation) (i : nat)
  (p : string * string) : nat :=
  length (filter (λ g, gen_pair g = p) (take i calls)).

(** The nonces a series of [getAndIncNonce] calls returns. *)
Fixpoint nonces_of (store : gmap string (gmap string Z))
  (calls : list (string * string)) : list Z :=
  match calls with
  | [] => []
  | (a, s) :: rest =>
      let '(nonce, store') := SecureProof.getAndIncNonce store a s in
      nonce :: nonces_of store' rest
  end.

Section Stages.
Context {S : Type} `{NonceStore S}.
Variable Date_getTime : option value → time_value.
Variable keccak256 : string → string.
Variable Buffer_from_hex : string → string.
Variable verifyMessage : string → string → option string.

(** The presence, timestamp, nonce, digest and signature stages all
    succeed on the request, for signer [a], session [s] and nonce
    [n]. *)
Definition five_stages_succeed (request : Request) (currentTimestamp : Z)
  (nonceStore : S) (a s : string) (n : Z) : Prop :=
  ∃ p deProof clientDigest,
    presenceCheck request = Pass (p, deProof) ∧
    logReceived deProof = Pass (a, s) ∧
    timestampCheck Date_getTime deProof currentTimestamp = Pass tt ∧
    nonceCheck nonceStore deProof a s = Pass n ∧
    digestCheck keccak256 p deProof n s = Pass clientDigest ∧
    signatureCheck Buffer_from_hex verifyMessage deProof clientDigest a
    = Pass tt.
End Stages.

(** The nonce the generator's store hands out next for a pair. *)
Definition next_nonce (store : gmap string (gmap string Z)) (a s : string) : Z :=
  match store !! a with
  | Some sessions => default 0%Z (sessions !! s)
  | None => 0%Z
  end.

(** ** A worked exchange

    One signer, one session, one call of the alerts tool, with the host
    libraries above. *)

Module Demo.
Definition alice : SecureProof.Wallet :=
  Signer.wallet "0xAbCdEf0123456789aBcDeF0123456789AbCdEf01".

Definition session : string := "3f2b6c1e-8d4a-4b7e-9c55-0a1b2c3d4e5f".

Definition args : list (string * value) := [("state", VStr "CA")].

(** Midnight of the first of January 2024, and five seconds later. *)
Definition issuedAt : string := "2024-01-01T00:00:00.000Z".
Definition receivedAt : Z := 1704067205000.

Definition generate (store : gmap string (gmap string Z)) (nowISO : string)
  : value * gmap string (gmap string Z) :=
  SecureProof.generateDeProof Keccak.keccak256 Hex.Buffer_from_hex store
    session nowISO (VObj args) alice None.

Definition validate (request : Request) (currentTimestamp : Z)
  (store : gmap string (gmap string Z)) : Outcome :=
  validateDeProof ISODate.getTime Keccak.keccak256 Hex.Buffer_from_hex
    Signer.verifyMessage request currentTimestamp store.

(** The first proof of the session and the request that carries it. *)
Definition deProof : value := (generate ∅ issuedAt).1.

Definition request : Request :=
  {| params := VObj (Client.secureArgs args deProof) |}.

(** The same request with one field of its proof replaced. *)
Definition with_field (name : string) (v : value) : Request :=
  {| params :=
       VObj (Client.secureArgs args
               (match deProof with
                | VObj props => VObj (prop_set props name v)
                | other => other
                end)) |}.

(** A proof signed over a timestamp that is not a date. *)
Definition undated : Request :=
  {| params :=
       VObj (Client.secureArgs args (generate ∅ "not-a-date").1) |}.

(** A request whose [_deProof] is an object without any field. *)
Definition fieldless : Request :=
  {| params := VObj (Client.secureArgs args (VObj [])) |}.

(** Upper-case rendering of a hexadecimal text. *)
Fixpoint upper (s : string) : string :=
  match s with
  | EmptyString => EmptyString
  | String c rest =>
      let n := N_of_ascii c in
      String (if ((97 <=? n) && (n <=? 122))%N then ascii_of_N (n - 32)
              else c) (upper rest)
  end.

Definition declared_digest : string :=
  match field deProof "digest" with
  | Some (VStr d) => d
  | _ => EmptyString
  end.

Definition declared_signature : string :=
  match field deProof "signature" with
  | Some (VStr g) => g
  | _ => EmptyString
  end.

(** The call without any proof. *)
Definition bare : Request := {| params := VObj args |}.

(** Four calls of the generator: three for one address and session,
    with one for another signer in between. *)
Definition bob : SecureProof.Wallet :=
  Signer.wallet "0x00000000000000000000000000000000000000b0".

Definition call (wallet : SecureProof.Wallet) (nowISO : string)
  (currentSession : option string) : Generation :=
  {| gen_fresh := session; gen_now := nowISO; gen_params := VObj args;
     gen_wallet := wallet; gen_session := currentSession |}.

Definition calls : list Generation :=
  [call alice "2024-01-01T00:00:00.000Z" None;
   call alice "2024-01-01T00:00:01.000Z" (Some session);
   call bob "2024-01-01T00:00:02.000Z" (Some session);
   call alice "2024-01-01T00:00:03.000Z" (Some session)].

(** Two renderings of one parameter tree. *)
Definition tree1 : value :=
  VObj [("state", VStr "CA");
        ("filter", VObj [("severity", VArr [VStr "Severe"; VStr "Extreme"]);
                         ("limit", VNum 5); ("10", VBool true);
                         ("9", VNull)])].
Definition tree2 : value :=
  VObj [("filter", VObj [("9", VNull); ("limit", VNum 5);
                         ("severity", VArr [VStr "Severe"; VStr "Extreme"]);
                         ("10", VBool true)]);
        ("state", VStr "CA")].
End Demo.

(** ** More of the language, for the callers *)

Module Coercions.
(** The own properties that [{ ...v }] copies. *)
Definition spread (v : value) : list (string * value) :=
  match v with
  | VObj props => props
  | VArr elems => imap (λ i x, (pretty i, x)) elems
  | VStr s =>
      imap (λ i c, (pretty i, VStr (String c EmptyString)))
        (list_ascii_of_string s)
  | _ => []
  end.

(** The text a template literal writes for a value. *)
Fixpoint ToString (v : value) : string :=
  match v with
  | VNull => "null"
  | VBool true => "true"
  | VBool false => "false"
  | VNum n => pretty n
  | VStr s => s
  | VArr elems =>
      String.concat ","
        (map (λ x, match x with
                   | VNull => EmptyString
                   | _ => ToString x
                   end) elems)
  | VObj _ => "[object Object]"
  end.

(** [x || d], where [x] may be [undefined]. *)
Definition or_else (x : option value) (d : value) : value :=
  match x with
  | Some v => if truthy v then v else d
  | None => d
  end.

Definition newline : string := String "010"%char EmptyString.
End Coercions.

Import Coercions.

(** ** The server: the tools and their dispatcher *)

Module WeatherServer.

(** [function formatAlert(feature)]; [None] when it throws, which it
    does when the feature or its [properties] is [null] or missing. *)
Definition formatAlert (feature : value) : option string :=
  match feature with
  | VNull => None
  | _ =>
      match field feature "properties" with
      | None | Some VNull => None
      | Some props =>
          Some (String.concat newline
            ["Event: " +:+ ToString (or_else (field props "event")
                                        (VStr "Unknown"));
             "Area: " +:+ ToString (or_else (field props "areaDesc")
                                       (VStr "Unknown"));
             "Severity: " +:+ ToString (or_else (field props "severity")
                                           (VStr "Unknown"));
             "Status: " +:+ ToString (or_else (field props "status")
                                         (VStr "Unknown"));
             "Headline: " +:+ ToString (or_else (field props "headline")
                                           (VStr "No headline"));
             "---"])
      end
  end.

(** How the promise of a tool handler ends: with a result, with an
    exception, or not within the 20 seconds the dispatcher waits. *)
Inductive HandlerOutcome (R : Type) : Type :=
| Resolved (r : R)
| Rejected
| Pending.
Arguments Resolved {R} r.
Arguments Rejected {R}.
Arguments Pending {R}.

Definition NWS_API_BASE : string := "https://api.weather.gov".

Section Tools.
(** [String.prototype.toUpperCase]. *)
Variable toUpperCase : string → string.
(** [makeNWSRequest(url)]: the parsed body, or [null] on any
    failure. *)
Variable makeNWSRequest : string → value.

(** [features.length === 0]. *)
Definition length_is_zero (features : value) : bool :=
  match features with
  | VArr elems => bool_decide (elems = [])
  | VStr s => String.eqb s EmptyString
  | VObj props =>
      match prop_get props "length" with
      | Some (VNum n) => (n =? 0)%Z
      | _ => false
      end
  | _ => false
  end.

(** [features.map(formatAlert)]; [None] when it throws. *)
Definition map_formatAlert (features : value) : option (list string) :=
  match features with
  | VArr elems => mapM formatAlert elems
  | _ => None
  end.

(** The handler of the [get-alerts] tool; its result is the text of
    the reply. *)
Definition getAlerts (params : list (string * value))
  : HandlerOutcome string :=
  match prop_get params "state" with
  | Some (VStr state) =>
      let stateCode := toUpperCase state in
      let alertsUrl := NWS_API_BASE +:+ "/alerts?area=" +:+ stateCode in
      let alertsData := makeNWSRequest alertsUrl in
      if negb (truthy alertsData)
      then Resolved "Failed to retrieve alerts data"
      else
        let features :=
          or_else (field alertsData "features") (VArr []) in
        if length_is_zero features
        then Resolved ("No active alerts for " +:+ stateCode)
        else
          match map_formatAlert features with
          | Some formattedAlerts =>
              Resolved ("Active alerts for " +:+ stateCode +:+ ":"
                        +:+ newline +:+ newline
                        +:+ String.concat newline formattedAlerts)
          | None => Rejected
          end
  | _ => Rejected
  end.
End Tools.

(** What the dispatcher returns: the rejection of the validator, the
    result of the tool, or the failure of the tool (code -32008), be it
    an exception or the 20 seconds running out. *)
Inductive ToolResponse (R : Type) : Type :=
| ValidationFailed (error : ErrorResponse)
| ToolResult (r : R)
| ToolExecutionFailed (timedOut : bool).
Arguments ValidationFailed {R} error.
Arguments ToolResult {R} r.
Arguments ToolExecutionFailed {R} timedOut.

(** What one dispatched call leaves behind: the reply, the nonce store
    of the server, and the parameters the handler was called with, if
    it was called. *)
Record Dispatch (R : Type) := {
  response : ToolResponse R;
  nonceStore_after : gmap string (gmap string Z);
  handler_params : option (list (string * value));
}.
Arguments response {R} _.
Arguments nonceStore_after {R} _.
Arguments handler_params {R} _.

Section Dispatcher.
Variable Date_getTime : option value → time_value.
Variable keccak256 : string → string.
Variable Buffer_from_hex : string → string.
Variable verifyMessage : string → string → option string.

(** [withDeProofValidation(handler)] applied to the parameters of a
    call, over the in-memory store of the server.  The validation
    awaits nothing but that store, so it settles before its own
    5-second timer can. *)
Definition withDeProofValidation {R : Type}
  (handler : list (string * value) → HandlerOutcome R)
  (fullParams : value) (currentTimestamp : Z)
  (nonceStore : gmap string (gmap string Z)) : Dispatch R :=
  let requestToValidate := {| params := fullParams |} in
  let validation :=
    validateDeProof Date_getTime keccak256 Buffer_from_hex verifyMessage
      requestToValidate currentTimestamp nonceStore in
  match verdict validation with
  | Some validationError =>
      {| response := ValidationFailed validationError;
         nonceStore_after := store_after validation;
         handler_params := None |}
  | None =>
      let actualParams := prop_delete (spread fullParams) "_deProof" in
      {| response :=
           match handler actualParams with
           | Resolved result => ToolResult result
           | Rejected => ToolExecutionFailed false
           | Pending => ToolExecutionFailed true
           end;
         nonceStore_after := store_after validation;
         handler_params := Some actualParams |}
  end.
End Dispatcher.

End WeatherServer.

(** ** The client: one tool call after another *)

Module MCPClient.

(** The session the client has settled on, if any, and the nonce
    counters of the generator. *)
Record State := {
  session : option string;
  nonceStore : gmap string (gmap string Z);
}.

(** [!this.session]. *)
Definition no_session (s : option string) : bool :=
  match s with
  | None => true
  | Some text => String.eqb text EmptyString
  end.

Section ToolCall.
Variable keccak256 : string → string.
Variable Buffer_from_hex : string → string.
Variable wallet : SecureProof.Wallet.

(** The body of the loop over the tool calls, up to the call itself:
    the arguments that are sent, and the client afterwards.
    [rawToolArgs] is what [JSON.parse] made of the arguments the
    model supplied. *)
Definition prepareToolCall (this : State) (fresh nowISO : string)
  (rawToolArgs : value) : list (string * value) * State :=
  let deProofGenArgs := prop_delete (spread rawToolArgs) "_deProof" in
  let '(deProof, nonceStore') :=
    SecureProof.generateDeProof keccak256 Buffer_from_hex
      (nonceStore this) fresh nowISO (VObj deProofGenArgs) wallet
      (session this) in
  let session' :=
    if no_session (session this)
    then Some (default fresh (session this)) (* [deProof.session] *)
    else session this in
  let secureArgs := Client.secureArgs (spread rawToolArgs) deProof in
  (secureArgs, {| session := session'; nonceStore := nonceStore' |}).
End ToolCall.

End MCPClient.

(** ** Vocabulary for the callers *)

(** The order in which an object enumerates its own keys once they have
    been assigned in sorted order: array indices by their number, before
    every other key; the other keys by their code units. *)
Definition key_before (k1 k2 : string) : Prop :=
  match array_index k1, array_index k2 with
  | Some i, Some j => (i < j)%N
  | Some _, None => True
  | None, Some _ => False
  | None, None => String.le k1 k2
  end.

(** The reply of the dispatcher to what the handler did. *)
Definition reply_of {R : Type} (o : WeatherServer.HandlerOutcome R)
  : WeatherServer.ToolResponse R :=
  match o with
  | WeatherServer.Resolved result => WeatherServer.ToolResult result
  | WeatherServer.Rejected => WeatherServer.ToolExecutionFailed false
  | WeatherServer.Pending => WeatherServer.ToolExecutionFailed true
  end.

(** The session a client uses for its next call. *)
Definition session_in_use (this : MCPClient.State) (fresh : string) : string :=
  default fresh (MCPClient.session this).

(** One tool call of a conversation: what the model supplied, what the
    client drew for a session and read from its clock, and what the
    clock of the server read when the call arrived. *)
Record Call := {
  call_args : value;
  call_fresh : string;
  call_now : string;
  call_received : Z;
}.

(** The arguments of a call as the tool is meant to get them. *)
Definition cleaned (c : Call) : list (string * value) :=
  prop_delete (spread (call_args c)) "_deProof".

Section Conversation.
Context {R : Type}.
Variable Date_getTime : option value → time_value.
Variable keccak256 : string → string.
Variable Buffer_from_hex : string → string.
Variable verifyMessage : string → string → option string.
Variable wallet : SecureProof.Wallet.
Variable handler : list (string * value) → WeatherServer.HandlerOutcome R.

(** The client prepares one call after the other, as its loop does,
    whatever came of the call before; the server is handed the
    arguments of each as they were sent, in the same order, and
    dispatches them to the tool.  What the dispatcher did with each
    call, and the two sides at the end. *)
Fixpoint converse (calls : list Call) (client : MCPClient.State)
  (server : gmap string (gmap string Z))
  : list (WeatherServer.Dispatch R) * MCPClient.State
    * gmap string (gmap string Z) :=
  match calls with
  | [] => ([], client, server)
  | c :: rest =>
      let '(secureArgs, client') :=
        MCPClient.prepareToolCall keccak256 Buffer_from_hex wallet client
          (call_fresh c) (call_now c) (call_args c) in
      let d :=
        WeatherServer.withDeProofValidation Date_getTime keccak256
          Buffer_from_hex verifyMessage handler (VObj secureArgs)
          (call_received c) server in
      let '(ds, client'', server'') :=
        converse rest client' (WeatherServer.nonceStore_after d) in
      (d :: ds, client'', server'')
  end.
End Conversation.

(** What the round trip asks of the hosts.  The digest the library
    prints carries one [0x] at most. *)
Definition digest_unprefixed (keccak256 : string → string) : Prop :=
  ∀ text, startsWith (strip0x (keccak256 text)) "0x" = false.

(** Recovery gives back the address of the wallet that signed, up to the
    case of its letters, from a signature that went without its [0x] and
    got it back. *)
Definition signature_recovers
  (verifyMessage : string → string → option string)
  (wallet : SecureProof.Wallet) : Prop :=
  ∀ message,
    ∃ recovered,
      verifyMessage message
        (let signature :=
           strip0x (SecureProof.signMessage wallet message) in
         if startsWith signature "0x" then signature else "0x" +:+ signature)
      = Some recovered ∧
      toLowerCase recovered = toLowerCase (SecureProof.address wallet).

(** The call arrives within the tolerance of the time it was made. *)
Definition timely (Date_getTime : option value → time_value) (c : Call)
  : Prop :=
  ∃ t, Date_getTime (Some (VStr (call_now c))) = Ms t ∧
       (Z.abs (call_received c - t) ≤ TIME_TOLERANCE_SECONDS * 1000)%Z.

(** Client and server agree on the next nonce of every session of the
    address. *)
Definition in_step (client : MCPClient.State)
  (server : gmap string (gmap string Z)) (a : string) : Prop :=
  ∀ s, InMemoryNonceStore.getExpectedNonce server a s
       = next_nonce (MCPClient.nonceStore client) a s.

(** The dispatcher turned the call down: with the rejection of the
    timestamp, or with that of the nonce. *)
Definition turned_down {R : Type} (d : WeatherServer.Dispatch R) : Prop :=
  WeatherServer.handler_params d = None ∧
  ∃ e, WeatherServer.response d = WeatherServer.ValidationFailed e ∧
       (e = TimestampOutOfRange ∨ ∃ n m, e = NonceMismatch (Some (VNum n)) m).

(** The proof of the request names signer [a] and session [s]. *)
Definition names_pair (request : Request) (a s : string) : bool :=
  match proof_of request with
  | Some deProof =>
      match field deProof "signerAddress", field deProof "session" with
      | Some (VStr a'), Some (VStr s') =>
          bool_decide (a' = a) && bool_decide (s' = s)
      | _, _ => false
      end
  | None => false
  end.

Section Acceptances.
Variable Date_getTime : option value → time_value.
Variable keccak256 : string → string.
Variable Buffer_from_hex : string → string.
Variable verifyMessage : string → string → option string.

(** How many of a series of validation attempts against the in-memory
    store are accepted for the pair [(a, s)]. *)
Fixpoint acceptances (store : InMemoryNonceStore.store)
  (attempts : list (Request * Z)) (a s : string) : nat :=
  match attempts with
  | [] => 0
  | (request, currentTimestamp) :: rest =>
      let o :=
        validateDeProof Date_getTime keccak256 Buffer_from_hex verifyMessage
          request currentTimestamp store in
      (match verdict o with
       | None => if names_pair request a s then 1 else 0
       | Some _ => 0
       end
       + acceptances (store_after o) rest a s)%nat
  end.
End Acceptances.

(** The request with the signer address of its proof written as [a']. *)
Definition respell (request : Request) (a' : string) : Request :=
  match params request with
  | VObj props =>
      match prop_get props "_deProof" with
      | Some (VObj deProof) =>
          {| params :=
               VObj (prop_set props "_deProof"
                       (VObj (prop_set deProof "signerAddress" (VStr a')))) |}
      | _ => request
      end
  | _ => request
  end.

(** ** Reading a canonical text *)

Module Reading.
Definition is_digit (c : ascii) : bool :=
  ((48 <=? N_of_ascii c) && (N_of_ascii c <=? 57))%N.

Fixpoint all_digits (s : string) : bool :=
  match s with
  | EmptyString => true
  | String c rest => is_digit c && all_digits rest
  end.

(** A text that cannot go on a number: the end, or anything but a
    digit. *)
Definition closes (r : string) : bool :=
  match r with
  | EmptyString => true
  | String c _ => negb (is_digit c)
  end.

(** The first character of the text of a value. *)
Definition opens (v : value) (c : ascii) : bool :=
  match v with
  | VNull => Ascii.eqb c "n"
  | VBool true => Ascii.eqb c "t"
  | VBool false => Ascii.eqb c "f"
  | VNum _ => is_digit c || Ascii.eqb c "-"
  | VStr _ => Ascii.eqb c dquote
  | VArr _ => Ascii.eqb c "["
  | VObj _ => Ascii.eqb c "{"
  end.

Definition hex_value (c : ascii) : N :=
  let n := N_of_ascii c in
  if (n <? 58)%N then (n - 48)%N else (n - 87)%N.

(** The code unit the escape in front of a text stands for, and the
    text after it; [None] at a quotation mark and at anything that is
    no escape. *)
Definition unescape (t : string) : option (ascii * string) :=
  match t with
  | EmptyString => None
  | String c rest =>
      if Ascii.eqb c dquote then None
      else if Ascii.eqb c backslash then
        match rest with
        | String e rest' =>
            if Ascii.eqb e "b" then Some ("008"%char, rest')
            else if Ascii.eqb e "t" then Some ("009"%char, rest')
            else if Ascii.eqb e "n" then Some ("010"%char, rest')
            else if Ascii.eqb e "f" then Some ("012"%char, rest')
            else if Ascii.eqb e "r" then Some ("013"%char, rest')
            else if Ascii.eqb e dquote then Some (dquote, rest')
            else if Ascii.eqb e backslash then Some (backslash, rest')
            else if Ascii.eqb e "u" then
              match rest' with
              | String _ (String _ (String h (String l rest''))) =>
                  Some (ascii_of_N (16 * hex_value h + hex_value l), rest'')
              | _ => None
              end
            else None
        | EmptyString => None
        end
      else Some (c, rest)
  end.

(** The texts of the members of a list after the first, each behind
    its comma, in front of the text [k]. *)
Fixpoint following (texts : list string) (k : string) : string :=
  match texts with
  | [] => k
  | t :: rest => "," +:+ t +:+ following rest k
  end.

(** All the texts of a list in front of [k]. *)
Definition listed (texts : list string) (k : string) : string :=
  match texts with
  | [] => k
  | t :: rest => t +:+ following rest k
  end.

(** What ends a list: the closing bracket or brace. *)
Definition closer (c : ascii) : Prop := c = "]"%char ∨ c = "}"%char.

(** The text of one member of an object. *)
Definition member (kv : string * value) : string :=
  json_quote kv.1 +:+ ":" +:+ JSON_stringify kv.2.

(** The text of the value can be read back: in front of whatever
    follows a value, it is the text of no other value, and what
    follows is determined too. *)
Definition read_back (v : value) : Prop :=
  ∀ v' r r',
    closes r = true → closes r' = true →
    JSON_stringify v +:+ r = JSON_stringify v' +:+ r' →
    v = v' ∧ r = r'.
End Reading.

(** ** A worked conversation *)

Module Chat.
(** What the weather service has for California: one alert, and one
    entry that is no alert at all. *)
Definition heat : value :=
  VObj [("properties",
         VObj [("event", VStr "Heat Advisory");
               ("areaDesc", VStr "Central Valley");
               ("severity", VStr "Moderate");
               ("status", VStr "Actual");
               ("headline", VNull)])].

Definition makeNWSRequest (url : string) : value :=
  if String.eqb url "https://api.weather.gov/alerts?area=CA"
  then VObj [("features", VArr [heat])]
  else if String.eqb url "https://api.weather.gov/alerts?area=NY"
  then VObj [("features", VArr [])]
  else if String.eqb url "https://api.weather.gov/alerts?area=TX"
  then VObj [("features", VArr [heat; VNull])]
  else VNull.

(** The [get-alerts] tool. *)
Definition tool : list (string * value) → WeatherServer.HandlerOutcome string :=
  WeatherServer.getAlerts Demo.upper makeNWSRequest.

Definition dispatch (fullParams : value) (currentTimestamp : Z)
  (nonceStore : gmap string (gmap string Z))
  : WeatherServer.Dispatch string :=
  WeatherServer.withDeProofValidation ISODate.getTime Keccak.keccak256
    Hex.Buffer_from_hex Signer.verifyMessage tool fullParams
    currentTimestamp nonceStore.

(** A client that has made no call yet. *)
Definition newcomer : MCPClient.State :=
  {| MCPClient.session := None; MCPClient.nonceStore := ∅ |}.

Definition prepare (this : MCPClient.State) (nowISO : string)
  (rawToolArgs : value) : list (string * value) * MCPClient.State :=
  MCPClient.prepareToolCall Keccak.keccak256 Hex.Buffer_from_hex Demo.alice
    this Demo.session nowISO rawToolArgs.

Definition call (state nowISO : string) (received : Z) : Call :=
  {| call_args := VObj [("state", VStr state)];
     call_fresh := Demo.session;
     call_now := nowISO;
     call_received := received |}.

(** Three calls, each received five seconds after it was made. *)
Definition calls : list Call :=
  [call "ca" "2024-01-01T00:00:00.000Z" 1704067205000;
   call "ny" "2024-01-01T00:00:10.000Z" 1704067215000;
   call "tx" "2024-01-01T00:00:20.000Z" 1704067225000].

(** The same, but for the first, which is received 61 seconds after
    it was made. *)
Definition delayed : list Call :=
  [call "ca" "2024-01-01T00:00:00.000Z" 1704067261000;
   call "ny" "2024-01-01T00:00:10.000Z" 1704067215000;
   call "tx" "2024-01-01T00:00:20.000Z" 1704067225000].

Definition talk (calls : list Call)
  : list (WeatherServer.Dispatch string) * MCPClient.State
    * gmap string (gmap string Z) :=
  converse ISODate.getTime Keccak.keccak256 Hex.Buffer_from_hex
    Signer.verifyMessage Demo.alice tool calls newcomer ∅.

(** Arguments in which the model has put a proof of its own making. *)
Definition meddled : value :=
  VObj [("_deProof", VObj [("nonce", VNum 7)]); ("state", VStr "ca")].

(** The first and the second request of the session. *)
Definition first : value := VObj (prepare newcomer Demo.issuedAt (VObj Demo.args)).1.
Definition second : value :=
  VObj (prepare (prepare newcomer Demo.issuedAt (VObj Demo.args)).2
          "2024-01-01T00:00:01.000Z" (VObj Demo.args)).1.

(** The address of the wallet in small letters. *)
Definition small : string := toLowerCase (SecureProof.address Demo.alice).

(** A store that knows another signer only. *)
Definition elsewhere : gmap string (gmap string Z) :=
  InMemoryNonceStore.incrementAndSetNonce ∅
    (SecureProof.address Demo.bob) Demo.session 4.
End Chat.
(** ** The canonical serializer *)

Section Serializer.

Lemma prop_get_Some_elem (m : list (string * value)) k v :
  prop_get m k = Some v → k ∈ Object_keys m.
Proof.
  induction m as [|[k' v'] m IH]; simpl; [done|].
  case_decide; [intros _; subst; left | intros; right; auto].
Qed.

Lemma prop_get_elem (m : list (string * value)) k :
  k ∈ Object_keys m → is_Some (prop_get m k).
Proof.
  induction m as [|[k' v'] m IH]; simpl.
  - by intros ?%elem_of_nil.
  - intros [->|?]%elem_of_cons; case_decide; eauto; done.
Qed.

Lemma prop_get_members (f : value → value) (m : list (string * value)) k :
  prop_get (map (λ kv, (kv.1, f kv.2)) m) k = f <$> prop_get m k.
Proof.
  induction m as [|[k' v'] m IH]; simpl; [done|].
  by case_decide.
Qed.

Lemma fold_left_ext_elem {A B} (f g : A → B → A) (l : list B) (a : A) :
  (∀ acc x, x ∈ l → f acc x = g acc x) →
  fold_left f l a = fold_left g l a.
Proof.
  revert a. induction l as [|x l IH]; intros a Hfg; simpl; [done|].
  rewrite (Hfg a x) by left. apply IH. intros; apply Hfg; by right.
Qed.

(** Sorting forgets the order in which the keys were enumerated. *)
Lemma sorted_keys_perm (l1 l2 : list string) :
  l1 ≡ₚ l2 → merge_sort String.le l1 = merge_sort String.le l2.
Proof.
  intros Hp. apply (Sorted_unique String.le).
  - apply (Sorted_merge_sort String.le).
  - apply (Sorted_merge_sort String.le).
  - by rewrite !merge_sort_Permutation.
Qed.

(** The function written in the source: each member is
    [sortObjectKeys(obj[key])], assigned in sorted key order. *)
Lemma sortObjectKeys_obj (props : list (string * value)) :
  SecureProof.sortObjectKeys (VObj props) =
  VObj (fold_left
          (λ acc key,
             match prop_get props key with
             | Some v => prop_set acc key (SecureProof.sortObjectKeys v)
             | None => acc
             end)
          (merge_sort String.le (Object_keys props)) []).
Proof.
  simpl. f_equal. apply fold_left_ext_elem. intros acc k _.
  rewrite (prop_get_members SecureProof.sortObjectKeys).
  by destruct (prop_get props k).
Qed.

Lemma sortObjectKeys_reordered (a b : value) :
  reordered a b → SecureProof.sortObjectKeys a = SecureProof.sortObjectKeys b.
Proof.
  induction 1 as [| | | | |x y xs ys _ IHx _ IHxs|m n Hnd Hperm Hval IH];
    try reflexivity.
  - simpl in *. injection IHxs as IHxs. by rewrite IHx, IHxs.
  - rewrite !sortObjectKeys_obj, (sorted_keys_perm _ _ Hperm).
    f_equal. apply fold_left_ext_elem. intros acc k Hk.
    rewrite merge_sort_Permutation in Hk.
    destruct (prop_get_elem n k Hk) as [w Hw].
    rewrite <- Hperm in Hk.
    destruct (prop_get_elem m k Hk) as [v Hv].
    by rewrite Hv, Hw, (IH k v w Hv Hw).
Qed.

(** Induction on a tree, with the hypothesis for every element of a
    sequence and every member of an object. *)
Lemma value_tree_ind (P : value → Prop) :
  P VNull → (∀ b, P (VBool b)) → (∀ n, P (VNum n)) → (∀ s, P (VStr s)) →
  (∀ elems, Forall P elems → P (VArr elems)) →
  (∀ props, Forall (λ kv, P kv.2) props → P (VObj props)) →
  ∀ v, P v.
Proof.
  intros Hnull Hbool Hnum Hstr Harr Hobj.
  fix IH 1. intros [|b|n|s|elems|props].
  - apply Hnull.
  - apply Hbool.
  - apply Hnum.
  - apply Hstr.
  - apply Harr.
    induction elems as [|x rest IHl]; constructor; [apply IH|apply IHl].
  - apply Hobj.
    induction props as [|[k x] rest IHl]; constructor; [apply IH|apply IHl].
Qed.

Lemma well_formed_arr elems :
  well_formed (VArr elems) ↔ Forall well_formed elems.
Proof.
  induction elems as [|x rest IH]; simpl; [by split; constructor|].
  rewrite Forall_cons. simpl in IH. by rewrite IH.
Qed.

Lemma well_formed_obj props :
  well_formed (VObj props) ↔
  NoDup (Object_keys props) ∧ Forall (λ kv, well_formed kv.2) props.
Proof.
  simpl. apply and_iff_compat_l.
  induction props as [|kv rest IH]; [by split; constructor|].
  by rewrite Forall_cons, IH.
Qed.

Lemma prop_get_entry (m : list (string * value)) k v :
  prop_get m k = Some v → (k, v) ∈ m.
Proof.
  induction m as [|[k' v'] m IH]; simpl; [done|].
  case_decide; [intros [= ->]; subst; left | intros; right; auto].
Qed.

Lemma entry_prop_get (m : list (string * value)) k v :
  NoDup (Object_keys m) → (k, v) ∈ m → prop_get m k = Some v.
Proof.
  induction m as [|[k' v'] m IH]; simpl.
  - by intros _ ?%elem_of_nil.
  - intros [Hk Hnd]%NoDup_cons [[= -> ->]|Hin]%elem_of_cons.
    + by rewrite decide_True.
    + rewrite decide_False; [auto|]. intros ->. apply Hk.
      apply list_elem_of_fmap. by exists (k, v).
Qed.

(** A well-formed tree is the same tree as itself. *)
Lemma reordered_refl v : well_formed v → reordered v v.
Proof.
  induction v as [| | | |elems IH|props IH] using value_tree_ind;
    [constructor..| |].
  - intros Hwf%well_formed_arr. revert IH Hwf.
    induction elems as [|x rest IHl]; intros IH Hwf; [constructor|].
    apply Forall_cons_1 in IH as [Hx Hrest].
    apply Forall_cons_1 in Hwf as [Hwx Hwrest]. constructor; auto.
  - intros [Hnd Hwf]%well_formed_obj. constructor; [done|done|].
    intros k v w Hv Hw. rewrite Hv in Hw. injection Hw as <-.
    apply prop_get_entry in Hv.
    rewrite Forall_forall in IH, Hwf.
    apply (IH (k, v) Hv), (Hwf (k, v) Hv).
Qed.

(** Writing the members of an object in another order gives the same
    tree. *)
Lemma reordered_permutation (m m' : list (string * value)) :
  well_formed (VObj m) → m ≡ₚ m' → reordered (VObj m) (VObj m').
Proof.
  intros [Hnd Hwf]%well_formed_obj Hperm. constructor; [done| |].
  - unfold Object_keys. by rewrite Hperm.
  - intros k v w Hv Hw.
    assert (NoDup (Object_keys m')) as Hnd'.
    { unfold Object_keys in *. by rewrite <- Hperm. }
    apply prop_get_entry in Hv. pose proof Hv as Hin.
    rewrite Hperm in Hv. apply (entry_prop_get _ _ _ Hnd') in Hv.
    rewrite Hv in Hw. injection Hw as <-.
    rewrite Forall_forall in Hwf. apply reordered_refl, (Hwf (k, v) Hin).
Qed.

(** The serializer declared inside the validator is the generator's. *)
Lemma validator_canonicalStringify (v : value) :
  canonicalStringify v = SecureProof.canonicalStringify v.
Proof. reflexivity. Qed.

End Serializer.

Section SerializerDigest.
Variable keccak256 : string → string.

(** C4. Two parameter trees that are the same up to the order in which
    the keys of their objects were inserted have the same canonical
    text, and so the same Keccak-256 digest; this holds for the
    serializer of the generator and for the copy of it inside the
    validator. *)
Theorem canonicalStringify_key_order_invariant (tree1 tree2 : value) :
  reordered tree1 tree2 →
  SecureProof.canonicalStringify tree1 = SecureProof.canonicalStringify tree2 ∧
  canonicalStringify tree1 = canonicalStringify tree2 ∧
  keccak256 (SecureProof.canonicalStringify tree1)
  = keccak256 (SecureProof.canonicalStringify tree2) ∧
  keccak256 (canonicalStringify tree1) = keccak256 (canonicalStringify tree2).
Proof.
  intros Hr.
  assert (SecureProof.canonicalStringify tree1
          = SecureProof.canonicalStringify tree2) as Heq.
  { unfold SecureProof.canonicalStringify.
    by rewrite (sortObjectKeys_reordered _ _ Hr). }
  split; [exact Heq|].
  split; [by rewrite !validator_canonicalStringify|].
  split; [by rewrite Heq|].
  rewrite (validator_canonicalStringify tree1).
  rewrite (validator_canonicalStringify tree2). by rewrite Heq.
Qed.

End SerializerDigest.

(** ** The in-memory nonce store *)

Section Store.
Implicit Types (st : gmap string (gmap string Z)) (a s : string) (n : Z).

Lemma getExpectedNonce_unseen st a s :
  unseen st a s → InMemoryNonceStore.getExpectedNonce st a s = 0%Z.
Proof.
  unfold unseen, InMemoryNonceStore.getExpectedNonce. intros Hu.
  destruct (st !! a) as [m|] eqn:Hm; [|done].
  by rewrite (Hu m eq_refl).
Qed.

Lemma getExpectedNonce_increment st a s n :
  InMemoryNonceStore.getExpectedNonce
    (InMemoryNonceStore.incrementAndSetNonce st a s n) a s = (n + 1)%Z.
Proof.
  unfold InMemoryNonceStore.getExpectedNonce,
    InMemoryNonceStore.incrementAndSetNonce.
  destruct (st !! a); by simplify_map_eq.
Qed.

Lemma getExpectedNonce_increment_ne st a s n a' s' :
  (a, s) ≠ (a', s') →
  InMemoryNonceStore.getExpectedNonce
    (InMemoryNonceStore.incrementAndSetNonce st a s n) a' s'
  = InMemoryNonceStore.getExpectedNonce st a' s'.
Proof.
  unfold InMemoryNonceStore.getExpectedNonce,
    InMemoryNonceStore.incrementAndSetNonce.
  intros Hne.
  destruct (decide (a = a')) as [<-|Ha].
  - assert (s ≠ s') by congruence.
    destruct (st !! a) eqn:Hst; by simplify_map_eq.
  - destruct (st !! a) eqn:Hst; by simplify_map_eq.
Qed.

End Store.

(** ** The validator *)

Section ValidatorFacts.
Context {S : Type} `{NonceStore S}.
Variable Date_getTime : option value → time_value.
Variable keccak256 : string → string.
Variable Buffer_from_hex : string → string.
Variable verifyMessage : string → string → option string.

Local Abbreviation validate :=
  (validateDeProof Date_getTime keccak256 Buffer_from_hex verifyMessage).
Local Abbreviation stages :=
  (checks Date_getTime keccak256 Buffer_from_hex verifyMessage).
Local Abbreviation succeed :=
  (five_stages_succeed Date_getTime keccak256 Buffer_from_hex verifyMessage).

(** The five stages hand over to the commit exactly when each of them
    succeeds. *)
Lemma checks_Pass request t (st : S) calls a s n :
  stages request t st = (calls, Pass (a, s, n)) ↔
  succeed request t st a s n ∧ calls = [CallGetExpectedNonce a s].
Proof.
  unfold checks, checksBeforeStore, checksFromStore, five_stages_succeed.
  split.
  - destruct (presenceCheck request) as [[p d]| |] eqn:Hp; simpl; try done.
    destruct (logReceived d) as [[a' s']| |] eqn:Hl; simpl; try done.
    destruct (timestampCheck Date_getTime d t) as [[]| |] eqn:Ht;
      simpl; try done.
    destruct (nonceCheck st d a' s') as [n'| |] eqn:Hn; simpl;
      [|intros [= _ ?]; done..].
    destruct (digestCheck keccak256 p d n' s') as [g| |] eqn:Hd; simpl;
      [|intros [= _ ?]; done..].
    destruct (signatureCheck Buffer_from_hex verifyMessage d g a')
      as [[]| |] eqn:Hs; simpl; [|intros [= _ ?]; done..].
    intros [= <- -> -> ->]. split; [|done]. by exists p, d, g.
  - intros [(p & d & g & -> & Hl & Ht & Hn & Hd & Hs) ->]. simpl.
    rewrite Hl; simpl. rewrite Ht; simpl. rewrite Hn; simpl.
    rewrite Hd; simpl. by rewrite Hs.
Qed.

(** The calls made on the way are at most the one read. *)
Lemma checks_calls request t (st : S) :
  (stages request t st).1 = [] ∨
  ∃ a s, (stages request t st).1 = [CallGetExpectedNonce a s].
Proof.
  unfold checks.
  destruct (checksBeforeStore Date_getTime request t)
    as [[[[p d] a] s]| |]; simpl; eauto.
Qed.

(** C7. A validation that ends in a rejection of the presence,
    timestamp, nonce, digest or signature stage (any rejection but the
    one of the commit itself) leaves the nonce store as it found it and
    never calls [incrementAndSetNonce]; the call is made only once all
    five stages have succeeded. *)
Theorem rejection_leaves_store_untouched request t (st : S) :
  let o := validate request t st in
  (∀ e, verdict o = Some e → e ≠ NonceUpdateFailed →
     store_after o = st ∧
     ∀ a s n, CallIncrementAndSetNonce a s n ∉ store_calls o) ∧
  (∀ a s n, CallIncrementAndSetNonce a s n ∈ store_calls o →
     succeed request t st a s n).
Proof.
  unfold validateDeProof.
  pose proof (checks_calls request t st) as Hcalls.
  destruct (stages request t st) as [calls r] eqn:Hst. simpl in Hcalls.
  assert (∀ a s n, CallIncrementAndSetNonce a s n ∉ calls) as Hno.
  { intros a s n Hin.
    destruct Hcalls as [->|(a' & s' & ->)].
    - by apply elem_of_nil in Hin.
    - apply list_elem_of_singleton in Hin. discriminate. }
  assert (∀ a s n a' s' n',
            CallIncrementAndSetNonce a' s' n'
            ∈ calls ++ [CallIncrementAndSetNonce a s n] →
            a' = a ∧ s' = s ∧ n' = n) as Hlast.
  { intros a s n a' s' n' [Hin|Hin]%elem_of_app.
    - by destruct (Hno a' s' n').
    - apply list_elem_of_singleton in Hin. by injection Hin as -> -> ->. }
  destruct r as [[[a s] n]|e|].
  - apply checks_Pass in Hst as [Hok _].
    destruct (incrementAndSetNonce st a s n) as [st'|]; simpl.
    + split; [done|]. intros a' s' n' Hin.
      by destruct (Hlast _ _ _ _ _ _ Hin) as (-> & -> & ->).
    + split; [intros e [= <-]; done|]. intros a' s' n' Hin.
      by destruct (Hlast _ _ _ _ _ _ Hin) as (-> & -> & ->).
  - simpl. split; [|intros a s n Hin; by destruct (Hno a s n)].
    intros e' _ _. split; [done|]. apply Hno.
  - simpl. split; [|intros a s n Hin; by destruct (Hno a s n)].
    intros e' _ _. split; [done|]. apply Hno.
Qed.

End ValidatorFacts.

(** ** The stages one by one *)

Section Presence.

(** The proof of a request, seen from the presence stage. *)
Lemma presenceCheck_Pass request props deProof :
  presenceCheck request = Pass (props, deProof) ↔
  params request = VObj props ∧ proof_of request = Some deProof ∧
  truthy deProof = true.
Proof.
  unfold presenceCheck, proof_of.
  destruct (params request) as [| | | | |m]; try (split; [done|by intros [? _]]).
  destruct (prop_get m "_deProof") as [d|] eqn:Hd.
  - destruct (truthy d) eqn:Ht; split.
    + by intros [= <- <-].
    + by intros ([= <-] & [= <-] & _).
    + done.
    + intros (_ & [= <-] & ?). congruence.
  - split; [done|]. by intros (_ & ? & _).
Qed.

Lemma field_Some_truthy deProof name v :
  field deProof name = Some v → truthy deProof = true.
Proof. by destruct deProof. Qed.

(** C2, as the validator has it. The presence stage returns the
    missing-proof rejection exactly when the parameters are not [null]
    and carry no [_deProof], or one that is falsy; any other [_deProof]
    passes the stage, whichever of the six fields it has and whatever
    their types are, and in particular a proof with all six fields of
    the right types passes. *)
Theorem presence_stage_checks_presence_only request :
  (presenceCheck request = Return MissingProof ↔
   params request ≠ VNull ∧
   (proof_of request = None ∨
    ∃ deProof, proof_of request = Some deProof ∧ truthy deProof = false)) ∧
  (∀ deProof,
     proof_of request = Some deProof → truthy deProof = true →
     ∃ props, presenceCheck request = Pass (props, deProof)) ∧
  (∀ deProof,
     proof_of request = Some deProof → well_typed_proof deProof →
     ∃ props, presenceCheck request = Pass (props, deProof)).
Proof.
  assert (∀ deProof,
     proof_of request = Some deProof → truthy deProof = true →
     ∃ props, presenceCheck request = Pass (props, deProof)) as Hpass.
  { intros d Hd Ht. unfold proof_of in Hd.
    destruct (params request) as [| | | | |m] eqn:Hp; try done.
    exists m. apply presenceCheck_Pass. unfold proof_of. by rewrite Hp. }
  split; [|split; [done|]].
  - unfold presenceCheck, proof_of.
    destruct (params request) as [| | | | |m]; try (split; [eauto|done]).
    + split; [done|]. by intros [? _].
    + destruct (prop_get m "_deProof") as [d|]; [|split; eauto].
      destruct (truthy d) eqn:Ht; split; eauto; try done.
      intros [_ [?|(d' & [= <-] & ?)]]; congruence.
  - intros d Hd (a & _ & _ & _ & _ & _ & Ha & _).
    apply Hpass; [done|]. by eapply field_Some_truthy.
Qed.

End Presence.

Section Timestamp.
Variable Date_getTime : option value → time_value.

Lemma Qc_of_Z_1000_pos : (Q2Qc 0 < Qc_of_Z 1000)%Qc.
Proof. rewrite <- Z2Qc_inj_0. by apply Z2Qc_inj_lt. Qed.

(** Dividing by 1000 and comparing with 60 seconds is comparing the
    milliseconds with 60000. *)
Lemma exceeds_tolerance_ms (now t : Z) :
  exceeds_tolerance (diffSeconds now (Ms t))
  = bool_decide (60 * 1000 < Z.abs (now - t))%Z.
Proof.
  unfold exceeds_tolerance, diffSeconds, TIME_TOLERANCE_SECONDS.
  apply bool_decide_ext.
  rewrite (Qcmult_lt_mono_pos_r _ _ (Qc_of_Z 1000) Qc_of_Z_1000_pos).
  rewrite test_field.
  - rewrite <- Z2Qc_inj_mul. symmetry. apply Z2Qc_inj_lt.
  - intros Heq. pose proof Qc_of_Z_1000_pos as Hpos.
    rewrite Heq in Hpos. by apply Qclt_not_eq in Hpos.
Qed.

Lemma timestampCheck_Ms deProof now t :
  Date_getTime (field deProof "timestamp") = Ms t →
  timestampCheck Date_getTime deProof now =
  if bool_decide (60 * 1000 < Z.abs (now - t))%Z
  then Return TimestampOutOfRange else Pass tt.
Proof.
  intros Ht. unfold timestampCheck. rewrite Ht, exceeds_tolerance_ms.
  by case_bool_decide.
Qed.

Lemma timestampCheck_NaN deProof now :
  Date_getTime (field deProof "timestamp") = NaN →
  timestampCheck Date_getTime deProof now = Pass tt.
Proof. intros Ht. unfold timestampCheck. by rewrite Ht. Qed.

(** The rejection written for a timestamp of the wrong format is never
    returned. *)
Lemma timestampCheck_never_format deProof now :
  timestampCheck Date_getTime deProof now ≠ Return TimestampInvalidFormat.
Proof.
  unfold timestampCheck. by destruct (exceeds_tolerance _).
Qed.

End Timestamp.

(** ** Replay protection with the in-memory store *)

Section Replay.
Variable Date_getTime : option value → time_value.
Variable keccak256 : string → string.
Variable Buffer_from_hex : string → string.
Variable verifyMessage : string → string → option string.

Implicit Types (st : gmap string (gmap string Z)) (a s : string) (n : Z).

Local Abbreviation validate :=
  (validateDeProof Date_getTime keccak256 Buffer_from_hex verifyMessage).
Local Abbreviation stages :=
  (checks Date_getTime keccak256 Buffer_from_hex verifyMessage).
Local Abbreviation succeed :=
  (five_stages_succeed Date_getTime keccak256 Buffer_from_hex verifyMessage).
Local Abbreviation expected := InMemoryNonceStore.getExpectedNonce.
Local Abbreviation advance := InMemoryNonceStore.incrementAndSetNonce.

(** The nonce stage against the in-memory store. *)
Lemma nonceCheck_in_memory st deProof a s :
  nonceCheck st deProof a s =
  if nonce_differs (field deProof "nonce") (expected st a s)
  then Return (NonceMismatch (field deProof "nonce") (expected st a s))
  else Pass (expected st a s).
Proof.
  unfold nonceCheck; simpl.
  by destruct (nonce_differs _ _).
Qed.

Lemma nonce_differs_false received e :
  nonce_differs received e = false ↔ received = Some (VNum e).
Proof.
  unfold nonce_differs. split.
  - destruct received as [[]|]; try done.
    intros Hn. apply negb_false_iff, Z.eqb_eq in Hn. by subst.
  - intros ->. by rewrite Z.eqb_refl.
Qed.

(** An accepted request advances the store; any other leaves it. *)
Lemma validate_in_memory request t st :
  (∃ a s n, succeed request t st a s n ∧
            verdict (validate request t st) = None ∧
            store_after (validate request t st) = advance st a s n) ∨
  ((∃ e, verdict (validate request t st) = Some e) ∧
   store_after (validate request t st) = st).
Proof.
  unfold validateDeProof.
  destruct (stages request t st) as [calls r] eqn:Hst.
  destruct r as [[[a s] n]|e|]; simpl.
  - apply checks_Pass in Hst as [Hok _]. left. by exists a, s, n.
  - right. eauto.
  - right. eauto.
Qed.

Lemma succeed_presents request t st a s n a' s' n' :
  presents request a s n → succeed request t st a' s' n' →
  a' = a ∧ s' = s ∧ n' = n ∧ expected st a s = n.
Proof.
  intros (d & Hd & Ha & Hs & Hn) (p & d' & g & Hp & Hl & _ & Hc & _).
  unfold presenceCheck, proof_of in *.
  destruct (params request) as [| | | | |props]; try done.
  rewrite Hd in Hp. destruct (truthy d); [|done].
  injection Hp as <- <-.
  unfold logReceived in Hl. rewrite Ha, Hs in Hl. injection Hl as <- <-.
  rewrite nonceCheck_in_memory, Hn in Hc.
  destruct (nonce_differs _ _) eqn:Hnd; [done|].
  injection Hc as <-.
  apply nonce_differs_false in Hnd. by injection Hnd as ->.
Qed.

(** The expected nonce of a pair never goes down. *)
Lemma expected_monotone request t st a s :
  (expected st a s ≤ expected (store_after (validate request t st)) a s)%Z.
Proof.
  destruct (validate_in_memory request t st)
    as [(a' & s' & n' & Hok & _ & ->)|[_ ->]]; [|done].
  destruct Hok as (p & d & g & _ & _ & _ & Hc & _).
  rewrite nonceCheck_in_memory in Hc.
  destruct (nonce_differs _ _); [done|]. injection Hc as <-.
  destruct (decide ((a', s') = (a, s))) as [[= -> ->]|Hne].
  - rewrite getExpectedNonce_increment. lia.
  - by rewrite getExpectedNonce_increment_ne.
Qed.

Lemma expected_monotone_all attempts st a s :
  (expected st a s
   ≤ expected (validate_all Date_getTime keccak256 Buffer_from_hex
                 verifyMessage st attempts) a s)%Z.
Proof.
  revert st. induction attempts as [|[request t] rest IH]; intros st;
    simpl; [done|].
  etrans; [apply (expected_monotone request t)|apply IH].
Qed.

(** What the validator makes of a request that presents [(a, s, n)]
    when the store expects another nonce for the pair. *)
Lemma validate_stale request t st a s n :
  presents request a s n → expected st a s ≠ n →
  ∃ deProof,
    proof_of request = Some deProof ∧
    nonceCheck st deProof a s
    = Return (NonceMismatch (Some (VNum n)) (expected st a s)) ∧
    verdict (validate request t st)
    = match timestampCheck Date_getTime deProof t with
      | Pass _ => Some (NonceMismatch (Some (VNum n)) (expected st a s))
      | _ => Some TimestampOutOfRange
      end.
Proof.
  intros (d & Hd & Ha & Hs & Hn) Hne.
  assert (nonceCheck st d a s
          = Return (NonceMismatch (Some (VNum n)) (expected st a s))) as Hc.
  { rewrite nonceCheck_in_memory, Hn.
    destruct (nonce_differs _ _) eqn:Hnd; [done|].
    apply nonce_differs_false in Hnd. congruence. }
  exists d. split; [done|]. split; [done|].
  unfold validateDeProof, checks, checksBeforeStore, presenceCheck.
  unfold proof_of in Hd.
  destruct (params request) as [| | | | |props]; try done.
  rewrite Hd, (field_Some_truthy d _ _ Ha).
  simpl. unfold logReceived. rewrite Ha, Hs. simpl.
  unfold timestampCheck.
  destruct (exceeds_tolerance _); simpl; [done|].
  unfold checksFromStore. by rewrite Hc.
Qed.


End Replay.

Section TimestampStage.
Context {S : Type} `{NonceStore S}.
Variable Date_getTime : option value → time_value.
Variable keccak256 : string → string.
Variable Buffer_from_hex : string → string.
Variable verifyMessage : string → string → option string.

Local Abbreviation validate :=
  (validateDeProof Date_getTime keccak256 Buffer_from_hex verifyMessage).
Local Abbreviation stages :=
  (checks Date_getTime keccak256 Buffer_from_hex verifyMessage).

(** A request turned down before stage 3 leaves no trace on the
    store. *)
Lemma validate_rejected_early request now (st : S) e :
  checksBeforeStore Date_getTime request now = Return e →
  validate request now st
  = {| verdict := Some e; store_after := st; store_calls := [] |}.
Proof. intros He. unfold validateDeProof, checks. by rewrite He. Qed.

(** A request that gets past stage 2 reads the store first. *)
Lemma validate_reaches_store request now (st : S) p deProof a s :
  checksBeforeStore Date_getTime request now = Pass (p, deProof, a, s) →
  stages request now st
  = ([CallGetExpectedNonce a s],
     checksFromStore keccak256 Buffer_from_hex verifyMessage st p deProof a s)
  ∧ ∃ rest,
      store_calls (validate request now st)
      = CallGetExpectedNonce a s :: rest.
Proof.
  intros Hb. unfold validateDeProof, checks. rewrite Hb. split; [done|].
  destruct (checksFromStore _ _ _ _ _ _ _ _) as [[[a' s'] n']|e|]; simpl;
    [destruct (incrementAndSetNonce _ _ _ _)|..]; simpl; eauto.
Qed.

(** C6. With the tolerance of 60 seconds, a proof whose timestamp is at
    most 60 seconds away from the validator's clock, on either side
    and the two boundaries included, passes the timestamp stage, and
    the validation goes on to the nonce stage; a proof that is further
    away, by as little as a millisecond, is turned down with the
    out-of-range rejection before the store is touched. *)
Theorem timestamp_tolerance_window request now p deProof a s t :
  presenceCheck request = Pass (p, deProof) →
  logReceived deProof = Pass (a, s) →
  Date_getTime (field deProof "timestamp") = Ms t →
  ((Z.abs (now - t) ≤ TIME_TOLERANCE_SECONDS * 1000)%Z →
     timestampCheck Date_getTime deProof now = Pass tt ∧
     ∀ st : S, ∃ rest,
       store_calls (validate request now st)
       = CallGetExpectedNonce a s :: rest) ∧
  ((TIME_TOLERANCE_SECONDS * 1000 < Z.abs (now - t))%Z →
     timestampCheck Date_getTime deProof now = Return TimestampOutOfRange ∧
     code TimestampOutOfRange = (-32001)%Z ∧
     ∀ st : S,
       validate request now st
       = {| verdict := Some TimestampOutOfRange;
            store_after := st; store_calls := [] |}).
Proof.
  intros Hp Hl Ht. unfold TIME_TOLERANCE_SECONDS.
  pose proof (timestampCheck_Ms Date_getTime deProof now t Ht) as Hc.
  split; intros Hd.
  - rewrite bool_decide_eq_false_2 in Hc by lia.
    split; [done|]. intros st.
    eapply validate_reaches_store.
    unfold checksBeforeStore. rewrite Hp; simpl. rewrite Hl; simpl.
    by rewrite Hc.
  - rewrite bool_decide_eq_true_2 in Hc by lia.
    split; [done|]. split; [done|]. intros st.
    apply validate_rejected_early.
    unfold checksBeforeStore. rewrite Hp; simpl. rewrite Hl; simpl.
    by rewrite Hc.
Qed.

(** A timestamp text that [Date] cannot read gives [NaN], every
    comparison with [NaN] is false, and so the timestamp stage lets
    the proof through: the validation goes on to read the nonce store,
    and the rejection for a timestamp of the wrong format is not
    returned. *)
Lemma unparseable_timestamp_passes request now p deProof a s text :
  presenceCheck request = Pass (p, deProof) →
  logReceived deProof = Pass (a, s) →
  field deProof "timestamp" = Some (VStr text) →
  Date_getTime (Some (VStr text)) = NaN →
  timestampCheck Date_getTime deProof now = Pass tt ∧
  ∀ st : S,
    verdict (validate request now st) ≠ Some TimestampInvalidFormat ∧
    ∃ rest,
      store_calls (validate request now st)
      = CallGetExpectedNonce a s :: rest.
Proof.
  intros Hp Hl Hf Ht. rewrite <- Hf in Ht.
  pose proof (timestampCheck_NaN Date_getTime deProof now Ht) as Hc.
  split; [done|]. intros st.
  assert (checksBeforeStore Date_getTime request now = Pass (p, deProof, a, s))
    as Hb.
  { unfold checksBeforeStore. rewrite Hp; simpl. rewrite Hl; simpl.
    by rewrite Hc. }
  split; [|by eapply validate_reaches_store].
  unfold validateDeProof, checks. rewrite Hb.
  unfold checksFromStore, nonceCheck, digestCheck, signatureCheck.
  destruct (getExpectedNonce st a s); simpl; [|done].
  destruct (nonce_differs _ _); simpl; [done|].
  destruct (field deProof "digest") as [[]|]; simpl; try done.
  destruct (negb (String.eqb _ _)); simpl; [done|].
  destruct (field deProof "signature") as [[]|]; simpl; try done.
  destruct (verifyMessage _ _); simpl; [|done].
  destruct (negb (String.eqb _ _)); simpl; [done|].
  by destruct (incrementAndSetNonce _ _ _ _).
Qed.

End TimestampStage.

Section DigestStage.
Variable keccak256 : string → string.

(** The text the validator digests. *)
Lemma strip0x_denotes x y :
  strip0x x = strip0x y → Hex.denotes x = Hex.denotes y.
Proof. unfold Hex.denotes, strip0x. by intros ->. Qed.

(** C5, as the validator has it. The stage takes [_deProof] out of the
    parameters, serialises [{params, nonce, session, timestamp}]
    canonically and digests the text.  It then removes one leading
    [0x] from the recomputed and from the declared digest and compares
    the two texts character by character: the stage succeeds exactly
    when they are equal, and returns the digest rejection otherwise.
    So the comparison does not see the prefix, but it does see the
    case of the letters; and a declared digest that denotes other
    bytes than the recomputed one is always turned down. *)
Theorem digest_compared_modulo_prefix_only
  (p : list (string * value)) deProof nonce session declared :
  field deProof "digest" = Some (VStr declared) →
  let data :=
    VObj ([("params", VObj (prop_delete p "_deProof"));
           ("nonce", VNum nonce); ("session", VStr session)]
          ++ literal_prop "timestamp" (field deProof "timestamp")) in
  let recomputed := keccak256 (canonicalStringify data) in
  (strip0x recomputed = strip0x declared →
     digestCheck keccak256 p deProof nonce session = Pass (strip0x declared)) ∧
  (strip0x recomputed ≠ strip0x declared →
     digestCheck keccak256 p deProof nonce session = Return DigestMismatch) ∧
  (Hex.denotes recomputed ≠ Hex.denotes declared →
     digestCheck keccak256 p deProof nonce session = Return DigestMismatch) ∧
  code DigestMismatch = (-32005)%Z.
Proof.
  intros Hd data recomputed.
  assert (digestCheck keccak256 p deProof nonce session =
          if String.eqb (strip0x recomputed) (strip0x declared)
          then Pass (strip0x declared) else Return DigestMismatch) as Hc.
  { unfold digestCheck. rewrite Hd. fold data. fold recomputed.
    by destruct (String.eqb _ _). }
  split; [|split; [|split; [|done]]].
  - intros Heq. apply String.eqb_eq in Heq. by rewrite Hc, Heq.
  - intros Hne. apply String.eqb_neq in Hne. by rewrite Hc, Hne.
  - intros Hne. destruct (String.eqb _ _) eqn:Heq in Hc; [|done].
    apply String.eqb_eq, strip0x_denotes in Heq. done.
Qed.

End DigestStage.

Section SignatureStage.
Variable Buffer_from_hex : string → string.
Variable verifyMessage : string → string → option string.

(** C8. The stage recovers an address from the declared digest and
    signature and compares it with the declared signer after
    lower-casing both: equal, the stage succeeds; different, it
    returns the address-mismatch rejection.  When recovery fails on
    the signature, the stage returns the signature rejection: no
    address comes out of a malformed signature and the proof is not
    let through. *)
Theorem signature_stage deProof clientDigest signerAddress signature :
  field deProof "signature" = Some (VStr signature) →
  let signatureHex :=
    if startsWith signature "0x" then signature else "0x" +:+ signature in
  let recovered := verifyMessage (Buffer_from_hex clientDigest) signatureHex in
  (∀ recoveredAddress,
     recovered = Some recoveredAddress →
     (toLowerCase recoveredAddress = toLowerCase signerAddress →
        signatureCheck Buffer_from_hex verifyMessage deProof clientDigest
          signerAddress = Pass tt) ∧
     (toLowerCase recoveredAddress ≠ toLowerCase signerAddress →
        signatureCheck Buffer_from_hex verifyMessage deProof clientDigest
          signerAddress = Return SignatureAddressMismatch)) ∧
  (recovered = None →
     signatureCheck Buffer_from_hex verifyMessage deProof clientDigest
       signerAddress = Return SignatureException) ∧
  code SignatureAddressMismatch = (-32006)%Z ∧
  code SignatureException = (-32007)%Z.
Proof.
  intros Hs signatureHex recovered.
  unfold signatureCheck. rewrite Hs. fold signatureHex. fold recovered.
  split; [|split; [|done]].
  - intros r ->. split; intros Hcmp.
    + apply String.eqb_eq in Hcmp. by rewrite Hcmp.
    + apply String.eqb_neq in Hcmp. by rewrite Hcmp.
  - by intros ->.
Qed.

(** The stage looks at the declared signer only through its lower-case
    form. *)
Lemma signatureCheck_case deProof clientDigest a1 a2 :
  toLowerCase a1 = toLowerCase a2 →
  signatureCheck Buffer_from_hex verifyMessage deProof clientDigest a1
  = signatureCheck Buffer_from_hex verifyMessage deProof clientDigest a2.
Proof. intros Heq. unfold signatureCheck. by rewrite Heq. Qed.

End SignatureStage.

(** ** The generator's nonce counter *)

Section GeneratorNonces.
Implicit Types (st : gmap string (gmap string Z)) (a s : string).

Lemma getAndIncNonce_returns st a s :
  (SecureProof.getAndIncNonce st a s).1 = next_nonce st a s.
Proof.
  unfold SecureProof.getAndIncNonce, next_nonce; simpl.
  destruct (st !! a) as [m|] eqn:Hm; simplify_map_eq; [|done].
  destruct (m !! s) eqn:Hs; by simplify_map_eq.
Qed.

Lemma getAndIncNonce_advances st a s :
  next_nonce (SecureProof.getAndIncNonce st a s).2 a s
  = (next_nonce st a s + 1)%Z.
Proof.
  unfold SecureProof.getAndIncNonce, next_nonce; simpl.
  destruct (st !! a) as [m|] eqn:Hm; simplify_map_eq; [|done].
  destruct (m !! s) eqn:Hs; by simplify_map_eq.
Qed.

Lemma getAndIncNonce_other st a s a' s' :
  (a, s) ≠ (a', s') →
  next_nonce (SecureProof.getAndIncNonce st a s).2 a' s'
  = next_nonce st a' s'.
Proof.
  intros Hne. unfold SecureProof.getAndIncNonce, next_nonce; simpl.
  destruct (decide (a = a')) as [<-|Ha].
  - assert (s ≠ s') by congruence.
    destruct (st !! a) as [m|] eqn:Hm; simplify_map_eq; [|done].
    destruct (m !! s) eqn:Hs; by simplify_map_eq.
  - destruct (st !! a) as [m|] eqn:Hm; by simplify_map_eq.
Qed.

Lemma next_nonce_empty a s : next_nonce ∅ a s = 0%Z.
Proof. unfold next_nonce. by rewrite lookup_empty. Qed.

Local Arguments SecureProof.getAndIncNonce : simpl never.

(** Each call returns the number of earlier calls for its pair, on top
    of where the store stood. *)
Lemma nonces_of_count st (calls : list (string * string)) i a s :
  calls !! i = Some (a, s) →
  nonces_of st calls !! i
  = Some (next_nonce st a s
          + Z.of_nat (length (filter (λ c, c = (a, s)) (take i calls))))%Z.
Proof.
  revert st i. induction calls as [|[a' s'] rest IH]; intros st i Hi;
    [done|].
  cbn [nonces_of].
  destruct (SecureProof.getAndIncNonce st a' s') as [nonce st'] eqn:Hg.
  destruct i as [|i]; simpl in Hi |- *.
  - injection Hi as -> ->.
    pose proof (getAndIncNonce_returns st a s) as Hr. rewrite Hg in Hr.
    cbn [fst] in Hr. rewrite Hr. f_equal. lia.
  - rewrite (IH st' i Hi). f_equal.
    assert (st' = (SecureProof.getAndIncNonce st a' s').2) as ->
      by by rewrite Hg.
    rewrite filter_cons. case_decide as Heq.
    + injection Heq as -> ->. rewrite getAndIncNonce_advances.
      cbn [length]. lia.
    + rewrite getAndIncNonce_other by congruence. lia.
Qed.

End GeneratorNonces.

Section GeneratedProofs.
Variable keccak256 : string → string.
Variable Buffer_from_hex : string → string.

Implicit Types (st : gmap string (gmap string Z)).

Local Arguments SecureProof.getAndIncNonce : simpl never.

Local Abbreviation generate :=
  (SecureProof.generateDeProof keccak256 Buffer_from_hex).
Local Abbreviation generate_all' := (generate_all keccak256 Buffer_from_hex).

(** What a generated proof declares. *)
Lemma generateDeProof_fields st fresh now params wallet session :
  let '(deProof, st') := generate st fresh now params wallet session in
  let a := SecureProof.address wallet in
  let s := default fresh session in
  field deProof "signerAddress" = Some (VStr a) ∧
  field deProof "session" = Some (VStr s) ∧
  field deProof "nonce" = Some (VNum (next_nonce st a s)) ∧
  field deProof "timestamp" = Some (VStr now) ∧
  st' = (SecureProof.getAndIncNonce st a s).2.
Proof.
  unfold SecureProof.generateDeProof.
  pose proof (getAndIncNonce_returns st (SecureProof.address wallet)
                (default fresh session)) as Hr.
  destruct (SecureProof.getAndIncNonce _ _ _) as [nonce st']. simpl in *.
  by subst.
Qed.

Lemma generate_all_nonce st calls i g :
  calls !! i = Some g →
  ∃ deProof,
    generate_all' st calls !! i = Some deProof ∧
    field deProof "signerAddress"
    = Some (VStr (SecureProof.address (gen_wallet g))) ∧
    field deProof "session"
    = Some (VStr (default (gen_fresh g) (gen_session g))) ∧
    field deProof "nonce"
    = Some (VNum (next_nonce st (gen_pair g).1 (gen_pair g).2
                  + Z.of_nat (earlier_calls calls i (gen_pair g)))%Z).
Proof.
  revert st i. induction calls as [|g' rest IH]; intros st i Hi; [done|].
  cbn [generate_all].
  pose proof (generateDeProof_fields st (gen_fresh g') (gen_now g')
                (gen_params g') (gen_wallet g') (gen_session g')) as Hf.
  destruct (generate st _ _ _ _ _) as [d st'].
  destruct Hf as (Ha & Hs & Hn & _ & Hst').
  destruct i as [|i]; simpl in Hi |- *.
  - injection Hi as ->. exists d. unfold earlier_calls.
    cbn [take]. rewrite filter_nil. cbn [length Z.of_nat].
    rewrite Z.add_0_r. done.
  - edestruct (IH) as (d' & Hd' & Ha' & Hs' & Hn'); [exact Hi|].
    exists d'. split; [done|]. split; [done|]. split; [done|].
    rewrite Hn'. do 2 f_equal. unfold earlier_calls. cbn [take].
    rewrite filter_cons.
    change (SecureProof.address (gen_wallet g')) with (gen_pair g').1.
    change (default (gen_fresh g') (gen_session g')) with (gen_pair g').2.
    rewrite Hst'.
    change (SecureProof.address (gen_wallet g)) with (gen_pair g).1.
    change (default (gen_fresh g) (gen_session g)) with (gen_pair g).2.
    case_decide as Heq.
    + rewrite <- Heq. rewrite getAndIncNonce_advances. cbn [length]. lia.
    + rewrite getAndIncNonce_other; [done|].
      intros Hc. apply Heq.
      rewrite (surjective_pairing (gen_pair g)). exact Hc.
Qed.

Lemma earlier_calls_lt calls i j g :
  (i < j)%nat → calls !! i = Some g →
  (earlier_calls calls i (gen_pair g) < earlier_calls calls j (gen_pair g))%nat.
Proof.
  intros Hij Hi. unfold earlier_calls.
  replace j with (i + (1 + (j - Datatypes.S i)))%nat by lia.
  rewrite <- take_take_drop, <- (take_take_drop (drop i calls)).
  rewrite (drop_S calls g i Hi). simpl.
  rewrite filter_app, filter_cons, !length_app.
  rewrite decide_True by done. simpl. lia.
Qed.


End GeneratedProofs.

(** ** Addresses as keys *)

Section AddressKeys.
Variable Buffer_from_hex : string → string.
Variable verifyMessage : string → string → option string.


End AddressKeys.

(** ** From the generator to the validator *)

Section RoundTrip.
Variable Date_getTime : option value → time_value.
Variable keccak256 : string → string.
Variable Buffer_from_hex : string → string.
Variable verifyMessage : string → string → option string.

Lemma prop_get_delete (m : list (string * value)) k :
  prop_get (prop_delete m k) k = None.
Proof.
  induction m as [|[k' v'] m IH]; simpl; [done|].
  case_decide; [done|]. simpl. by rewrite decide_False.
Qed.

Lemma prop_delete_absent (m : list (string * value)) k :
  prop_get m k = None → prop_delete m k = m.
Proof.
  induction m as [|[k' v'] m IH]; simpl; [done|].
  case_decide; [done|]. intros Hm. by rewrite IH.
Qed.

Lemma prop_get_app_absent (m : list (string * value)) k v :
  prop_get m k = None → prop_get (m ++ [(k, v)]) k = Some v.
Proof.
  induction m as [|[k' v'] m IH]; simpl; [by rewrite decide_True|].
  by case_decide.
Qed.

Lemma prop_delete_app_absent (m : list (string * value)) k v :
  prop_get m k = None → prop_delete (m ++ [(k, v)]) k = m.
Proof.
  induction m as [|[k' v'] m IH]; simpl; [by rewrite decide_True|].
  case_decide; [done|]. intros Hm. by rewrite IH.
Qed.

(** The client puts the proof under [_deProof], after the arguments. *)
Lemma secureArgs_appends rawToolArgs deProof :
  Client.secureArgs rawToolArgs deProof
  = prop_delete rawToolArgs "_deProof" ++ [("_deProof", deProof)].
Proof.
  unfold Client.secureArgs, prop_set. by rewrite prop_get_delete.
Qed.

(** A proof that the generator has just made is accepted, provided
    the two clocks are within the tolerance of each other, the
    validator's store expects the nonce the generator hands out, the
    digest text carries one prefix at most, and recovery gives back the
    address of the wallet that signed. *)
Theorem generated_proof_accepted
  (clientStore serverStore : gmap string (gmap string Z))
  (fresh nowISO : string) (rawToolArgs : list (string * value))
  (wallet : SecureProof.Wallet) (currentSession : option string)
  (currentTimestamp t : Z) :
  let a := SecureProof.address wallet in
  let s := default fresh currentSession in
  let n := next_nonce clientStore a s in
  let args := prop_delete rawToolArgs "_deProof" in
  let deProof :=
    (SecureProof.generateDeProof keccak256 Buffer_from_hex clientStore
       fresh nowISO (VObj args) wallet currentSession).1 in
  let request := {| params := VObj (Client.secureArgs rawToolArgs deProof) |} in
  let digest :=
    strip0x (keccak256 (SecureProof.canonicalStringify
      (VObj [("params", VObj args); ("nonce", VNum n);
             ("session", VStr s); ("timestamp", VStr nowISO)]))) in
  let signature :=
    strip0x (SecureProof.signMessage wallet (Buffer_from_hex digest)) in
  Date_getTime (Some (VStr nowISO)) = Ms t →
  (Z.abs (currentTimestamp - t) ≤ TIME_TOLERANCE_SECONDS * 1000)%Z →
  InMemoryNonceStore.getExpectedNonce serverStore a s = n →
  startsWith digest "0x" = false →
  (∃ recovered,
     verifyMessage (Buffer_from_hex digest)
       (if startsWith signature "0x" then signature else "0x" +:+ signature)
     = Some recovered ∧
     toLowerCase recovered = toLowerCase a) →
  validateDeProof Date_getTime keccak256 Buffer_from_hex verifyMessage
    request currentTimestamp serverStore
  = {| verdict := None;
       store_after :=
         InMemoryNonceStore.incrementAndSetNonce serverStore a s n;
       store_calls :=
         [CallGetExpectedNonce a s; CallIncrementAndSetNonce a s n] |}.
Proof.
  intros a s n args deProof request digest signature Ht Hwin Hexp Hpre
    (recovered & Hrec & Hlow).
  assert (deProof
          = VObj [("signerAddress", VStr a); ("nonce", VNum n);
                  ("session", VStr s); ("timestamp", VStr nowISO);
                  ("digest", VStr digest); ("signature", VStr signature)])
    as Hproof.
  { unfold deProof, SecureProof.generateDeProof.
    pose proof (getAndIncNonce_returns clientStore a s) as Hr.
    fold a s.
    destruct (SecureProof.getAndIncNonce clientStore a s) as [n' st'].
    simpl in Hr. subst n'. reflexivity. }
  assert (prop_get args "_deProof" = None) as Hargs
    by apply prop_get_delete.
  assert (strip0x digest = digest) as Hstrip
    by (unfold strip0x at 1; by rewrite Hpre).
  assert (checks Date_getTime keccak256 Buffer_from_hex verifyMessage
            request currentTimestamp serverStore
          = ([CallGetExpectedNonce a s], Pass (a, s, n))) as Hchecks.
  { apply checks_Pass. split; [|done].
    exists (args ++ [("_deProof", deProof)]), deProof, digest.
    split; [|split; [|split; [|split; [|split]]]].
    - apply presenceCheck_Pass. unfold proof_of. subst request.
      cbn [params]. rewrite secureArgs_appends. fold args.
      split; [done|]. split; [by apply prop_get_app_absent|].
      by rewrite Hproof.
    - by rewrite Hproof.
    - rewrite (timestampCheck_Ms Date_getTime deProof currentTimestamp t)
        by by rewrite Hproof.
      rewrite bool_decide_eq_false_2; [done|].
      unfold TIME_TOLERANCE_SECONDS in Hwin. lia.
    - rewrite nonceCheck_in_memory, Hexp.
      assert (field deProof "nonce" = Some (VNum n)) as ->
        by by rewrite Hproof.
      by rewrite (proj2 (nonce_differs_false _ _) eq_refl).
    - unfold digestCheck.
      assert (field deProof "digest" = Some (VStr digest)) as ->
        by by rewrite Hproof.
      assert (field deProof "timestamp" = Some (VStr nowISO)) as ->
        by by rewrite Hproof.
      rewrite (prop_delete_app_absent _ _ _ Hargs), Hstrip.
      assert (strip0x (keccak256 (canonicalStringify
                (VObj ([("params", VObj args); ("nonce", VNum n);
                        ("session", VStr s)]
                       ++ literal_prop "timestamp" (Some (VStr nowISO))))))
              = digest) as -> by reflexivity.
      by rewrite String.eqb_refl.
    - unfold signatureCheck.
      assert (field deProof "signature" = Some (VStr signature)) as ->
        by by rewrite Hproof.
      rewrite Hrec. apply String.eqb_eq in Hlow. by rewrite Hlow. }
  unfold validateDeProof. by rewrite Hchecks.
Qed.

End RoundTrip.

(** ** The worked exchange *)

Section Exchange.

Local Ltac by_computation :=
  cbv zeta; repeat split; vm_compute; reflexivity.

Local Ltac decide_concrete := apply (bool_decide_unpack _); by vm_compute.

(** Membership of a concrete object: the key is one of those written. *)
Local Ltac same_members :=
  let k := fresh "k" in
  let v := fresh "v" in
  let w := fresh "w" in
  let Hv := fresh "Hv" in
  let Hw := fresh "Hw" in
  intros k v w Hv Hw; cbn [prop_get] in Hv;
  repeat (case_decide; [subst k; vm_compute in Hw; simplify_eq|]);
  try discriminate.

Local Ltac same_tree :=
  repeat first
    [ apply reordered_null | apply reordered_bool | apply reordered_num
    | apply reordered_str | apply reordered_arr_nil
    | apply reordered_arr_cons
    | apply reordered_obj; [decide_concrete | decide_concrete | same_members] ].

Lemma demo_trees_reordered : reordered Demo.tree1 Demo.tree2.
Proof. unfold Demo.tree1, Demo.tree2. same_tree. Qed.

(** Two renderings of one tree, their canonical text and its digest. *)
Lemma canonicalStringify_key_order_invariant_witness :
  reordered Demo.tree1 Demo.tree2 ∧
  SecureProof.canonicalStringify Demo.tree1
  = SecureProof.canonicalStringify Demo.tree2 ∧
  canonicalStringify Demo.tree1 = canonicalStringify Demo.tree2 ∧
  Keccak.keccak256 (SecureProof.canonicalStringify Demo.tree1)
  = Keccak.keccak256 (SecureProof.canonicalStringify Demo.tree2) ∧
  Keccak.keccak256 (canonicalStringify Demo.tree1)
  = Keccak.keccak256 (canonicalStringify Demo.tree2).
Proof.
  split; [exact demo_trees_reordered|].
  exact (canonicalStringify_key_order_invariant Keccak.keccak256
           Demo.tree1 Demo.tree2 demo_trees_reordered).
Defined.

(** The text both sides digest for the first call, and its digest. *)
Example demo_canonical_text :
  SecureProof.canonicalStringify
    (VObj [("params", VObj Demo.args); ("nonce", VNum 0);
           ("session", VStr Demo.session);
           ("timestamp", VStr Demo.issuedAt)])
  = "{" +:+ json_quote "nonce" +:+ ":0," +:+ json_quote "params" +:+ ":{"
    +:+ json_quote "state" +:+ ":" +:+ json_quote "CA" +:+ "},"
    +:+ json_quote "session" +:+ ":" +:+ json_quote Demo.session +:+ ","
    +:+ json_quote "timestamp" +:+ ":" +:+ json_quote Demo.issuedAt +:+ "}".
Proof. by_computation. Qed.

Example demo_digest :
  Demo.declared_digest
  = "8ef2c515c14fca9bd0201427f1048da8f2723a9d11c9adb25ffc02374dd69f8b".
Proof. by_computation. Qed.

Example keccak256_of_empty_text :
  Keccak.keccak256 ""
  = "0xc5d2460186f7233c927e7db2dcc703c0e500b653ca82273b7bfad8045d85a470".
Proof. by_computation. Qed.

(** Integer-like keys are enumerated before the others, in numeric
    order, whatever order they were assigned in. *)
Example canonical_text_of_tree :
  SecureProof.canonicalStringify Demo.tree1
  = "{" +:+ json_quote "filter" +:+ ":{" +:+ json_quote "9" +:+ ":null,"
    +:+ json_quote "10" +:+ ":true," +:+ json_quote "limit" +:+ ":5,"
    +:+ json_quote "severity" +:+ ":[" +:+ json_quote "Severe" +:+ ","
    +:+ json_quote "Extreme" +:+ "]}," +:+ json_quote "state" +:+ ":"
    +:+ json_quote "CA" +:+ "}".
Proof. by_computation. Qed.

(** The first call of a fresh session is accepted and the store then
    expects nonce 1 for the pair. *)
Example first_call_accepted :
  let o := Demo.validate Demo.request Demo.receivedAt ∅ in
  verdict o = None ∧
  InMemoryNonceStore.getExpectedNonce (store_after o)
    (SecureProof.address Demo.alice) Demo.session = 1%Z ∧
  store_calls o
  = [CallGetExpectedNonce (SecureProof.address Demo.alice) Demo.session;
     CallIncrementAndSetNonce (SecureProof.address Demo.alice)
       Demo.session 0].
Proof. by_computation. Qed.

(** The same request a second time is turned down: nonce 1 is
    expected, nonce 0 was received. *)
Example replay_turned_down :
  let st := store_after (Demo.validate Demo.request Demo.receivedAt ∅) in
  Demo.validate Demo.request Demo.receivedAt st
  = {| verdict := Some (NonceMismatch (Some (VNum 0)) 1);
       store_after := st;
       store_calls :=
         [CallGetExpectedNonce (SecureProof.address Demo.alice)
            Demo.session] |}.
Proof. by_computation. Qed.

Lemma demo_presents :
  presents Demo.request (SecureProof.address Demo.alice) Demo.session 0.
Proof. exists Demo.deProof. repeat split; by_computation. Qed.


(** The replay changes nothing in the store; the first call reached the
    commit with all five stages passed. *)
Lemma rejection_leaves_store_untouched_witness :
  let st := store_after (Demo.validate Demo.request Demo.receivedAt ∅) in
  let o := Demo.validate Demo.request Demo.receivedAt st in
  verdict o = Some (NonceMismatch (Some (VNum 0)) 1) ∧
  store_after o = st ∧
  (∀ a s n, CallIncrementAndSetNonce a s n ∉ store_calls o) ∧
  five_stages_succeed ISODate.getTime Keccak.keccak256 Hex.Buffer_from_hex
    Signer.verifyMessage Demo.request Demo.receivedAt
    (∅ : gmap string (gmap string Z))
    (SecureProof.address Demo.alice) Demo.session 0.
Proof.
  intros st o.
  assert (verdict o = Some (NonceMismatch (Some (VNum 0)) 1)) as Hv
    by by_computation.
  destruct (rejection_leaves_store_untouched ISODate.getTime
              Keccak.keccak256 Hex.Buffer_from_hex Signer.verifyMessage
              Demo.request Demo.receivedAt st) as [Hrej _].
  destruct (Hrej _ Hv) as [Hst Hno]; [done|].
  destruct (rejection_leaves_store_untouched ISODate.getTime
              Keccak.keccak256 Hex.Buffer_from_hex Signer.verifyMessage
              Demo.request Demo.receivedAt (∅ : gmap string (gmap string Z)))
    as [_ Hadm].
  split; [exact Hv|]. split; [exact Hst|]. split; [exact Hno|].
  apply Hadm. destruct first_call_accepted as (_ & _ & Hcalls).
  unfold Demo.validate in Hcalls. rewrite Hcalls.
  apply elem_of_cons; right. apply elem_of_cons; by left.
Defined.

(** A [_deProof] without any field, and one whose nonce is a text,
    both get past the presence stage; neither verdict is the
    missing-proof rejection. *)
Lemma presence_ignores_fields :
  field (VObj []) "signerAddress" = None ∧
  presenceCheck Demo.fieldless
  = Pass (Client.secureArgs Demo.args (VObj []), VObj []) ∧
  verdict (Demo.validate Demo.fieldless Demo.receivedAt ∅)
  = Some ValidationException ∧
  (∃ props deProof,
     presenceCheck (Demo.with_field "nonce" (VStr "0"))
     = Pass (props, deProof) ∧
     field deProof "nonce" = Some (VStr "0")) ∧
  verdict (Demo.validate (Demo.with_field "nonce" (VStr "0"))
             Demo.receivedAt ∅)
  = Some (NonceMismatch (Some (VStr "0")) 0).
Proof.
  split; [by_computation|]. split; [by_computation|].
  split; [by_computation|]. split; [|by_computation].
  eexists _, _. split; by_computation.
Qed.

Lemma demo_proof_well_typed : well_typed_proof Demo.deProof.
Proof.
  exists (SecureProof.address Demo.alice), 0%Z, Demo.session, Demo.issuedAt,
    Demo.declared_digest, Demo.declared_signature.
  by_computation.
Qed.

(** A call without a proof is turned down at the presence stage; the
    worked request passes it. *)
Lemma presence_stage_checks_presence_only_witness :
  presenceCheck Demo.bare = Return MissingProof ∧
  ∃ props, presenceCheck Demo.request = Pass (props, Demo.deProof).
Proof.
  destruct (presence_stage_checks_presence_only Demo.bare) as [Hmissing _].
  destruct (presence_stage_checks_presence_only Demo.request)
    as (_ & _ & Htyped).
  split.
  - apply Hmissing. split; [discriminate|]. left. by_computation.
  - apply Htyped; [by_computation|exact demo_proof_well_typed].
Defined.

(** C3, on the code. A proof whose timestamp is the text
    [not-a-date], which [Date] cannot read, is not turned down by the
    timestamp stage: the validation reads the store, goes through the
    remaining stages and accepts the request. *)
Theorem unparseable_timestamp_accepted :
  (∃ deProof,
     proof_of Demo.undated = Some deProof ∧
     field deProof "timestamp" = Some (VStr "not-a-date") ∧
     ISODate.getTime (field deProof "timestamp") = NaN ∧
     timestampCheck ISODate.getTime deProof Demo.receivedAt = Pass tt) ∧
  verdict (Demo.validate Demo.undated Demo.receivedAt ∅) = None ∧
  store_calls (Demo.validate Demo.undated Demo.receivedAt ∅)
  = [CallGetExpectedNonce (SecureProof.address Demo.alice) Demo.session;
     CallIncrementAndSetNonce (SecureProof.address Demo.alice)
       Demo.session 0].
Proof.
  split; [|by_computation].
  exists (Demo.generate ∅ "not-a-date").1. by_computation.
Qed.

(** The digest of the worked request, declared in upper case: it
    denotes the 32 bytes of the recomputed digest and is turned down
    all the same. *)
Lemma upper_case_digest_rejected :
  let declared := Demo.upper Demo.declared_digest in
  let request := Demo.with_field "digest" (VStr declared) in
  let recomputed :=
    Keccak.keccak256
      (canonicalStringify
         (VObj [("params", VObj Demo.args); ("nonce", VNum 0);
                ("session", VStr Demo.session);
                ("timestamp", VStr Demo.issuedAt)])) in
  declared
  = "8EF2C515C14FCA9BD0201427F1048DA8F2723A9D11C9ADB25FFC02374DD69F8B" ∧
  Hex.denotes declared = Hex.denotes recomputed ∧
  length <$> Hex.denotes declared = Some 32%nat ∧
  (∃ props deProof,
     presenceCheck request = Pass (props, deProof) ∧
     field deProof "digest" = Some (VStr declared) ∧
     digestCheck Keccak.keccak256 props deProof 0 Demo.session
     = Return DigestMismatch) ∧
  verdict (Demo.validate request Demo.receivedAt ∅) = Some DigestMismatch.
Proof.
  split; [by_computation|]. split; [by_computation|].
  split; [by_computation|]. split; [|by_computation].
  eexists _, _. split; [by_computation|]. split; by_computation.
Qed.

(** The digest of the worked request, declared with a [0x] in front. *)
Lemma digest_compared_modulo_prefix_only_witness :
  let declared := "0x" +:+ Demo.declared_digest in
  let deProof :=
    VObj [("digest", VStr declared); ("timestamp", VStr Demo.issuedAt)] in
  field deProof "digest" = Some (VStr declared) ∧
  digestCheck Keccak.keccak256 Demo.args deProof 0 Demo.session
  = Pass Demo.declared_digest.
Proof.
  intros declared deProof.
  assert (field deProof "digest" = Some (VStr declared)) as Hd
    by by_computation.
  split; [exact Hd|].
  destruct (digest_compared_modulo_prefix_only Keccak.keccak256 Demo.args
              deProof 0 Demo.session declared Hd) as [Hpass _].
  rewrite Hpass; by_computation.
Defined.

(** The worked request, validated 60 and 61 seconds after and before the
    instant it was made. *)
Lemma timestamp_tolerance_window_witness :
  let issued := 1704067200000%Z in
  timestampCheck ISODate.getTime Demo.deProof (issued + 60000) = Pass tt ∧
  timestampCheck ISODate.getTime Demo.deProof (issued - 60000) = Pass tt ∧
  Demo.validate Demo.request (issued + 61000) ∅
  = {| verdict := Some TimestampOutOfRange;
       store_after := ∅; store_calls := [] |} ∧
  Demo.validate Demo.request (issued - 61000) ∅
  = {| verdict := Some TimestampOutOfRange;
       store_after := ∅; store_calls := [] |}.
Proof.
  intros issued.
  assert (presenceCheck Demo.request
          = Pass (Client.secureArgs Demo.args Demo.deProof, Demo.deProof))
    as Hp by by_computation.
  assert (logReceived Demo.deProof
          = Pass (SecureProof.address Demo.alice, Demo.session))
    as Hl by by_computation.
  assert (ISODate.getTime (field Demo.deProof "timestamp") = Ms issued)
    as Ht by by_computation.
  pose proof (λ now,
    timestamp_tolerance_window (S := gmap string (gmap string Z))
      ISODate.getTime Keccak.keccak256 Hex.Buffer_from_hex
      Signer.verifyMessage Demo.request now _ _ _ _ issued Hp Hl Ht) as Hw.
  unfold TIME_TOLERANCE_SECONDS in Hw.
  split; [|split; [|split]].
  - destruct (Hw (issued + 60000)%Z) as [Hin _].
    apply Hin. unfold issued. lia.
  - destruct (Hw (issued - 60000)%Z) as [Hin _].
    apply Hin. unfold issued. lia.
  - destruct (Hw (issued + 61000)%Z) as [_ Hout].
    destruct Hout as (_ & _ & Hv); [unfold issued; lia|]. exact (Hv ∅).
  - destruct (Hw (issued - 61000)%Z) as [_ Hout].
    destruct Hout as (_ & _ & Hv); [unfold issued; lia|]. exact (Hv ∅).
Defined.

(** The signature of the worked request against the lower-case
    spelling of the signer, against another address, and a text that
    is no signature. *)
Lemma signature_stage_witness :
  let check := signatureCheck Hex.Buffer_from_hex Signer.verifyMessage in
  field Demo.deProof "signature" = Some (VStr Demo.declared_signature) ∧
  Signer.verifyMessage (Hex.Buffer_from_hex Demo.declared_digest)
    ("0x" +:+ Demo.declared_signature)
  = Some (SecureProof.address Demo.alice) ∧
  check Demo.deProof Demo.declared_digest
    (toLowerCase (SecureProof.address Demo.alice)) = Pass tt ∧
  check Demo.deProof Demo.declared_digest
    (SecureProof.address Demo.bob) = Return SignatureAddressMismatch ∧
  check (VObj [("signature", VStr "zz")]) Demo.declared_digest
    (SecureProof.address Demo.alice) = Return SignatureException.
Proof.
  intros check.
  assert (field Demo.deProof "signature"
          = Some (VStr Demo.declared_signature)) as Hs by by_computation.
  assert (Signer.verifyMessage (Hex.Buffer_from_hex Demo.declared_digest)
            ("0x" +:+ Demo.declared_signature)
          = Some (SecureProof.address Demo.alice)) as Hr by by_computation.
  split; [exact Hs|]. split; [exact Hr|].
  split; [|split].
  - destruct (signature_stage Hex.Buffer_from_hex Signer.verifyMessage
                Demo.deProof Demo.declared_digest
                (toLowerCase (SecureProof.address Demo.alice))
                Demo.declared_signature Hs) as [Hrec _].
    destruct (Hrec (SecureProof.address Demo.alice)) as [Heq _];
      [by_computation|].
    apply Heq. by_computation.
  - destruct (signature_stage Hex.Buffer_from_hex Signer.verifyMessage
                Demo.deProof Demo.declared_digest
                (SecureProof.address Demo.bob)
                Demo.declared_signature Hs) as [Hrec _].
    destruct (Hrec (SecureProof.address Demo.alice)) as [_ Hne];
      [by_computation|].
    apply Hne. by vm_compute.
  - destruct (signature_stage Hex.Buffer_from_hex Signer.verifyMessage
                (VObj [("signature", VStr "zz")]) Demo.declared_digest
                (SecureProof.address Demo.alice) "zz")
      as (_ & Hthrow & _); [by_computation|].
    apply Hthrow. by_computation.
Defined.



(** The same signer under the other spelling of its address: the
    signature stage accepts it, and its first nonce is 0 again. *)
Example other_spelling_starts_again :
  let st := store_after (Demo.validate Demo.request Demo.receivedAt ∅) in
  let lower := toLowerCase (SecureProof.address Demo.alice) in
  let o := Demo.validate (Demo.with_field "signerAddress" (VStr lower))
             Demo.receivedAt st in
  verdict o = None ∧
  store_calls o
  = [CallGetExpectedNonce lower Demo.session;
     CallIncrementAndSetNonce lower Demo.session 0].
Proof. by_computation. Qed.

End Exchange.

(** ** Property lists *)

Section PropertyLists.
Implicit Types (m : list (string * value)) (k : string) (v : value).

Lemma prop_get_None_keys m k :
  prop_get m k = None ↔ k ∉ Object_keys m.
Proof.
  split.
  - intros Hn Hin. destruct (prop_get_elem m k Hin) as [v Hv]. congruence.
  - intros Hni. destruct (prop_get m k) as [v|] eqn:Hv; [|done].
    destruct Hni. by eapply prop_get_Some_elem.
Qed.

Lemma prop_get_replace m k v k' :
  prop_get (prop_replace m k v) k'
  = if decide (k = k') then (λ _, v) <$> prop_get m k else prop_get m k'.
Proof.
  induction m as [|[k0 v0] m IH]; simpl; [by case_decide|].
  destruct (decide (k0 = k)) as [->|Hne]; simpl.
  - destruct (decide (k = k')) as [->|Hne']; simpl; [done|done].
  - rewrite IH. destruct (decide (k = k')) as [<-|Hne']; simpl.
    + by rewrite decide_False.
    + done.
Qed.

Lemma prop_get_insert_index m i k v k' :
  prop_get m k = None →
  prop_get (prop_insert_index m i k v) k'
  = if decide (k = k') then Some v else prop_get m k'.
Proof.
  induction m as [|[k0 v0] m IH]; simpl; [done|].
  destruct (decide (k0 = k)) as [->|Hk0]; [done|]. intros Hm.
  destruct (array_index k0) as [j|]; [destruct (j <? i)%N|]; simpl;
    try done.
  rewrite (IH Hm). destruct (decide (k0 = k')) as [<-|]; [|done].
  by rewrite decide_False.
Qed.

Lemma prop_get_app m m' k :
  prop_get (m ++ m') k
  = match prop_get m k with Some v => Some v | None => prop_get m' k end.
Proof.
  induction m as [|[k0 v0] m IH]; simpl; [done|]. by case_decide.
Qed.

(** Reading after writing. *)
Lemma prop_get_set m k v k' :
  prop_get (prop_set m k v) k'
  = if decide (k = k') then Some v else prop_get m k'.
Proof.
  unfold prop_set. destruct (prop_get m k) as [w|] eqn:Hk.
  - rewrite prop_get_replace, Hk. by case_decide.
  - destruct (array_index k) as [i|].
    + by apply prop_get_insert_index.
    + rewrite prop_get_app. simpl.
      destruct (decide (k = k')) as [<-|Hne]; [by rewrite Hk|].
      by destruct (prop_get m k').
Qed.

Lemma prop_get_delete_other m k k' :
  k ≠ k' → prop_get (prop_delete m k) k' = prop_get m k'.
Proof.
  intros Hne. induction m as [|[k0 v0] m IH]; simpl; [done|].
  destruct (decide (k0 = k)) as [->|Hk0]; simpl.
  - by rewrite decide_False.
  - rewrite IH. done.
Qed.

Lemma keys_replace m k v :
  Object_keys (prop_replace m k v) = Object_keys m.
Proof.
  induction m as [|[k0 v0] m IH]; simpl; [done|].
  case_decide; simpl; [by subst|by rewrite IH].
Qed.

Lemma keys_insert_index m i k v :
  Object_keys (prop_insert_index m i k v) ≡ₚ k :: Object_keys m.
Proof.
  induction m as [|[k0 v0] m IH]; simpl; [done|].
  destruct (array_index k0) as [j|]; [destruct (j <? i)%N|]; simpl;
    try done.
  rewrite IH. apply perm_swap.
Qed.

(** The keys after writing: the key written joins the others unless it
    was one of them. *)
Lemma keys_set m k v :
  Object_keys (prop_set m k v)
  ≡ₚ if decide (k ∈ Object_keys m) then Object_keys m
     else k :: Object_keys m.
Proof.
  unfold prop_set. destruct (prop_get m k) as [w|] eqn:Hk.
  - rewrite decide_True by by eapply prop_get_Some_elem.
    by rewrite keys_replace.
  - rewrite decide_False by by apply prop_get_None_keys.
    destruct (array_index k) as [i|].
    + apply keys_insert_index.
    + unfold Object_keys. rewrite map_app. simpl.
      by rewrite Permutation_app_comm.
Qed.

Lemma keys_set_NoDup m k v :
  NoDup (Object_keys m) → NoDup (Object_keys (prop_set m k v)).
Proof.
  intros Hnd. rewrite keys_set. case_decide; [done|]. by constructor.
Qed.

End PropertyLists.

(** ** The canonical form *)

Section CanonicalForm.

Local Abbreviation step props :=
  (λ acc key,
     match prop_get props key with
     | Some v => prop_set acc key (SecureProof.sortObjectKeys v)
     | None => acc
     end).

(** A member of the rebuilt object, read back. *)
Lemma rebuilt_get props (l : list string) acc k :
  prop_get (fold_left (step props) l acc) k
  = if decide (k ∈ l)
    then match prop_get props k with
         | Some v => Some (SecureProof.sortObjectKeys v)
         | None => prop_get acc k
         end
    else prop_get acc k.
Proof.
  revert acc. induction l as [|k0 l IH]; intros acc; cbn [fold_left].
  - by rewrite decide_False by apply not_elem_of_nil.
  - rewrite IH.
    destruct (decide (k ∈ l)) as [Hin|Hni].
    + rewrite decide_True by by right.
      destruct (prop_get props k) as [v|] eqn:Hk; [done|].
      destruct (prop_get props k0) as [v0|] eqn:Hk0; [|done].
      rewrite prop_get_set. rewrite decide_False; [done|]. congruence.
    + destruct (decide (k = k0)) as [->|Hne].
      * rewrite decide_True by by left.
        destruct (prop_get props k0) as [v0|] eqn:Hk0; [|done].
        by rewrite prop_get_set, decide_True.
      * rewrite decide_False by (intros [?|?]%elem_of_cons; done).
        destruct (prop_get props k0) as [v0|] eqn:Hk0; [|done].
        by rewrite prop_get_set, decide_False.
Qed.

Lemma rebuilt_NoDup props (l : list string) acc :
  NoDup (Object_keys acc) →
  NoDup (Object_keys (fold_left (step props) l acc)).
Proof.
  revert acc. induction l as [|k0 l IH]; intros acc Hnd; simpl; [done|].
  apply IH. destruct (prop_get props k0); [|done]. by apply keys_set_NoDup.
Qed.

(** The members of a sorted object: those of the object, each sorted. *)
Lemma sortObjectKeys_get props k :
  match SecureProof.sortObjectKeys (VObj props) with
  | VObj sorted =>
      prop_get sorted k = SecureProof.sortObjectKeys <$> prop_get props k
  | _ => False
  end.
Proof.
  rewrite sortObjectKeys_obj, rebuilt_get. simpl.
  destruct (prop_get props k) as [v|] eqn:Hk; simpl.
  - rewrite decide_True; [done|].
    rewrite merge_sort_Permutation. by eapply prop_get_Some_elem.
  - by case_decide.
Qed.

Lemma sortObjectKeys_keys props :
  match SecureProof.sortObjectKeys (VObj props) with
  | VObj sorted =>
      NoDup (Object_keys sorted) ∧
      (NoDup (Object_keys props) → Object_keys sorted ≡ₚ Object_keys props)
  | _ => False
  end.
Proof.
  pose proof (sortObjectKeys_get props) as Hget.
  rewrite sortObjectKeys_obj in *.
  set (sorted := fold_left _ _ _) in *.
  assert (NoDup (Object_keys sorted)) as Hnd
    by (apply rebuilt_NoDup; constructor).
  split; [done|]. intros Hnd'.
  apply NoDup_Permutation; [done|done|]. intros k.
  split; intros Hin.
  - apply prop_get_elem in Hin as [w Hw]. rewrite Hget in Hw.
    destruct (prop_get props k) eqn:Hk; [|done].
    by eapply prop_get_Some_elem.
  - apply prop_get_elem in Hin as [w Hw].
    eapply prop_get_Some_elem. rewrite Hget, Hw. done.
Qed.

Lemma sorted_same_tree (v : value) :
  well_formed v →
  well_formed (SecureProof.sortObjectKeys v) ∧
  reordered v (SecureProof.sortObjectKeys v).
Proof.
  induction v as [| | | |elems IH|props IH] using value_tree_ind;
    try (intros _; split; [done|constructor]).
  - intros Hwf%well_formed_arr. cbn [SecureProof.sortObjectKeys].
    rewrite well_formed_arr.
    revert IH Hwf. induction elems as [|x rest IHl]; intros IH Hwf.
    + split; constructor.
    + apply Forall_cons_1 in IH as [Hx Hrest].
      apply Forall_cons_1 in Hwf as [Hwx Hwrest].
      destruct (Hx Hwx) as [Hx1 Hx2].
      destruct (IHl Hrest Hwrest) as [Hr1 Hr2].
      split; [by constructor|]. simpl. by constructor.
  - intros [Hnd Hwf]%well_formed_obj.
    pose proof (sortObjectKeys_get props) as Hget.
    pose proof (sortObjectKeys_keys props) as Hkeys.
    destruct (SecureProof.sortObjectKeys (VObj props)) as [| | | | |sorted];
      try done.
    destruct Hkeys as [Hnd' Hperm].
    rewrite Forall_forall in IH, Hwf.
    split.
    + apply well_formed_obj. split; [done|]. apply Forall_forall.
      intros [k w] Hin. simpl.
      apply (entry_prop_get _ _ _ Hnd') in Hin. rewrite Hget in Hin.
      destruct (prop_get props k) as [v|] eqn:Hk; [|done].
      injection Hin as <-. apply prop_get_entry in Hk.
      apply (IH (k, v) Hk), (Hwf (k, v) Hk).
    + constructor; [done|by rewrite Hperm|].
      intros k v w Hv Hw. rewrite Hget, Hv in Hw. injection Hw as <-.
      apply prop_get_entry in Hv.
      apply (IH (k, v) Hv), (Hwf (k, v) Hv).
Qed.


(** X2. Sorting the keys of a sorted tree changes nothing, and so the
    canonical text of the sorted tree is the canonical text of the
    tree. *)
Theorem sortObjectKeys_idempotent (v : value) :
  well_formed v →
  SecureProof.sortObjectKeys (SecureProof.sortObjectKeys v)
  = SecureProof.sortObjectKeys v ∧
  SecureProof.canonicalStringify (SecureProof.sortObjectKeys v)
  = SecureProof.canonicalStringify v.
Proof.
  intros Hwf. destruct (sorted_same_tree v Hwf) as [_ Hr].
  pose proof (sortObjectKeys_reordered _ _ Hr) as Heq.
  split; [done|]. unfold SecureProof.canonicalStringify. by rewrite <- Heq.
Qed.

End CanonicalForm.

(** ** The order of the members in the canonical text *)

Section MemberOrder.
Implicit Types (m : list (string * value)) (k : string) (v : value).

Lemma array_index_canonical k i : array_index k = Some i → k = pretty i.
Proof.
  unfold array_index. destruct k as [|c k]; [done|].
  destruct (digits_to_N 0 (String c k)) as [n|]; [|done].
  destruct (String.eqb (pretty n) (String c k)) eqn:Heq; simpl; [|done].
  destruct (n <? 4294967295)%N; [|done].
  intros [= <-]. symmetry. by apply String.eqb_eq.
Qed.

Lemma key_before_index_any k i k' :
  array_index k = Some i → array_index k' = None → key_before k k'.
Proof. unfold key_before. by intros -> ->. Qed.

(** An array index that is new to a sorted object goes to its place. *)
Lemma insert_index_sorted m i k v :
  array_index k = Some i → k ∉ Object_keys m →
  StronglySorted key_before (Object_keys m) →
  StronglySorted key_before (Object_keys (prop_insert_index m i k v)).
Proof.
  intros Hk. induction m as [|[k0 v0] m IH]; simpl.
  - intros _ _. repeat constructor.
  - intros Hni Hs. apply StronglySorted_inv in Hs as [Hs Hall].
    assert (k ≠ k0) as Hne by (intros ->; apply Hni; by left).
    assert (k ∉ Object_keys m) as Hni' by (intros ?; apply Hni; by right).
    destruct (array_index k0) as [j|] eqn:Hk0.
    + destruct (j <? i)%N eqn:Hlt; simpl.
      * apply N.ltb_lt in Hlt. constructor; [by apply IH|].
        rewrite keys_insert_index. constructor; [|done].
        unfold key_before. by rewrite Hk0, Hk.
      * apply N.ltb_ge in Hlt.
        assert (i < j)%N as Hij.
        { destruct (decide (i = j)) as [->|]; [|lia].
          apply array_index_canonical in Hk, Hk0. congruence. }
        constructor; [by constructor|]. constructor.
        { unfold key_before. by rewrite Hk, Hk0. }
        eapply Forall_impl; [exact Hall|]. intros x. unfold key_before.
        rewrite Hk, Hk0. destruct (array_index x); [lia|done].
    + simpl. constructor; [by constructor|]. constructor.
      { unfold key_before. by rewrite Hk, Hk0. }
      eapply Forall_impl; [exact Hall|]. intros x. unfold key_before.
      rewrite Hk, Hk0. by destruct (array_index x).
Qed.

(** Writing a key that comes after the other keys of its kind keeps a
    sorted object sorted. *)
Lemma set_sorted m k v :
  StronglySorted key_before (Object_keys m) →
  (∀ k', k' ∈ Object_keys m → array_index k' = None → String.le k' k) →
  StronglySorted key_before (Object_keys (prop_set m k v)).
Proof.
  intros Hs Hle. unfold prop_set.
  destruct (prop_get m k) as [w|] eqn:Hget; [by rewrite keys_replace|].
  apply prop_get_None_keys in Hget.
  destruct (array_index k) as [i|] eqn:Hk; [by apply insert_index_sorted|].
  unfold Object_keys. rewrite map_app. simpl.
  apply StronglySorted_app. split; [|split; [done|repeat constructor]].
  intros k1 k2 Hk1 ->%list_elem_of_singleton.
  unfold key_before. rewrite Hk.
  destruct (array_index k1) eqn:Hk1'; [done|]. by apply Hle.
Qed.

Local Abbreviation step props :=
  (λ acc key,
     match prop_get props key with
     | Some v => prop_set acc key (SecureProof.sortObjectKeys v)
     | None => acc
     end).

Lemma rebuilt_keys_subset props (l : list string) acc k :
  k ∈ Object_keys (fold_left (step props) l acc) →
  k ∈ Object_keys acc ∨ k ∈ l.
Proof.
  intros [w Hw]%prop_get_elem. rewrite rebuilt_get in Hw.
  case_decide; [by right|]. left. by eapply prop_get_Some_elem.
Qed.

Lemma rebuilt_sorted props (l : list string) acc :
  StronglySorted String.le l →
  StronglySorted key_before (Object_keys acc) →
  (∀ k' k, k' ∈ Object_keys acc → array_index k' = None → k ∈ l →
           String.le k' k) →
  StronglySorted key_before (Object_keys (fold_left (step props) l acc)).
Proof.
  revert acc. induction l as [|k0 l IH]; intros acc Hl Hs Hle;
    cbn [fold_left]; [done|].
  apply StronglySorted_inv in Hl as [Hl Hall].
  rewrite Forall_forall in Hall.
  destruct (prop_get props k0) as [v0|] eqn:Hk0.
  - apply IH; [done| |].
    + apply set_sorted; [done|]. intros k' Hin Hidx.
      apply (Hle k' k0 Hin Hidx). by left.
    + intros k' k Hin Hidx Hk. rewrite keys_set in Hin.
      assert (k' = k0 ∨ k' ∈ Object_keys acc) as [->|Hin'].
      { case_decide; [by right|]. by apply elem_of_cons in Hin. }
      * by apply Hall.
      * apply (Hle k' k Hin' Hidx). by right.
  - apply IH; [done|done|]. intros k' k Hin Hidx Hk.
    apply (Hle k' k Hin Hidx). by right.
Qed.

(** X3. The members of a sorted object come in the order the language
    enumerates them: the keys that are array indices first, by their
    number, and after them the other keys by their code units.  So the
    canonical text has ["9"] before ["10"], and both before any key that
    is not a number, although the sort alone puts ["10"] first. *)
Theorem canonical_member_order (props : list (string * value)) :
  ∃ sorted,
    SecureProof.sortObjectKeys (VObj props) = VObj sorted ∧
    sortObjectKeys (VObj props) = VObj sorted ∧
    StronglySorted key_before (Object_keys sorted).
Proof.
  eexists. split; [apply sortObjectKeys_obj|].
  split; [apply sortObjectKeys_obj|].
  apply rebuilt_sorted.
  - apply (StronglySorted_merge_sort String.le).
  - constructor.
  - intros k' k Hin. by apply elem_of_nil in Hin.
Qed.


End MemberOrder.

(** ** The two stores, one pair at a time *)

Section StoreLaws.
Implicit Types (st : gmap string (gmap string Z)) (a s : string) (n : Z).



End StoreLaws.

(** ** What a validation does to the store *)

Section ValidationEffect.
Variable Date_getTime : option value → time_value.
Variable keccak256 : string → string.
Variable Buffer_from_hex : string → string.
Variable verifyMessage : string → string → option string.

Implicit Types (st : gmap string (gmap string Z)) (a s : string) (n : Z).

Local Abbreviation validate :=
  (validateDeProof Date_getTime keccak256 Buffer_from_hex verifyMessage).
Local Abbreviation succeed :=
  (five_stages_succeed Date_getTime keccak256 Buffer_from_hex verifyMessage).
Local Abbreviation expected := InMemoryNonceStore.getExpectedNonce.
Local Abbreviation advance := InMemoryNonceStore.incrementAndSetNonce.

Lemma succeed_presented request t st a s n :
  succeed request t st a s n →
  presents request a s n ∧ expected st a s = n.
Proof.
  intros (p & d & g & Hp & Hl & _ & Hc & _).
  apply presenceCheck_Pass in Hp as (_ & Hd & _).
  unfold logReceived in Hl.
  destruct (field d "signerAddress") as [[| | |a'| |]|] eqn:Ha; try done.
  destruct (field d "session") as [[| | |s'| |]|] eqn:Hs; try done.
  injection Hl as -> ->.
  rewrite nonceCheck_in_memory in Hc.
  destruct (nonce_differs _ _) eqn:Hnd; [done|]. injection Hc as <-.
  apply nonce_differs_false in Hnd. split; [|done]. by exists d.
Qed.

Lemma validate_accepted request t st a s n :
  succeed request t st a s n →
  validate request t st
  = {| verdict := None; store_after := advance st a s n;
       store_calls := [CallGetExpectedNonce a s;
                       CallIncrementAndSetNonce a s n] |}.
Proof.
  intros Hok. unfold validateDeProof.
  by rewrite (proj2 (checks_Pass Date_getTime keccak256 Buffer_from_hex
                       verifyMessage request t st
                       [CallGetExpectedNonce a s] a s n) (conj Hok eq_refl)).
Qed.


(** With the in-memory store, every rejection leaves the store
    unwritten. *)
Lemma rejected_never_writes request t st :
  verdict (validate request t st) ≠ None →
  store_after (validate request t st) = st ∧
  ∀ a s n, CallIncrementAndSetNonce a s n ∉ store_calls (validate request t st).
Proof.
  unfold validateDeProof.
  pose proof (checks_calls Date_getTime keccak256 Buffer_from_hex
                verifyMessage request t st) as Hcalls.
  destruct (checks _ _ _ _ _ _ _) as [calls r]. simpl in Hcalls.
  assert (∀ a s n, CallIncrementAndSetNonce a s n ∉ calls) as Hno.
  { intros a s n Hin.
    destruct Hcalls as [->|(a' & s' & ->)];
      [by apply elem_of_nil in Hin|].
    apply list_elem_of_singleton in Hin. discriminate. }
  destruct r as [[[a s] n]|e|]; simpl; [done|done..].
Qed.


(** X9. The verdict looks at the store only through the nonce it
    expects for the pair the request names: two stores that expect the
    same nonce for that pair give the same verdict, whatever they hold
    for other signers and sessions. *)
Theorem verdict_reads_one_counter request t st st' :
  (∀ d a s,
     proof_of request = Some d →
     field d "signerAddress" = Some (VStr a) →
     field d "session" = Some (VStr s) →
     expected st a s = expected st' a s) →
  verdict (validate request t st) = verdict (validate request t st').
Proof.
  intros Hsame. unfold validateDeProof, checks.
  destruct (checksBeforeStore Date_getTime request t)
    as [[[[p d] a] s]|e|] eqn:Hb; [|done..].
  unfold checksFromStore. rewrite !nonceCheck_in_memory.
  assert (proof_of request = Some d ∧
          field d "signerAddress" = Some (VStr a) ∧
          field d "session" = Some (VStr s)) as (Hd & Ha & Hs).
  { unfold checksBeforeStore in Hb.
    destruct (presenceCheck request) as [[p0 d0]| |] eqn:Hp; try done.
    simpl in Hb. apply presenceCheck_Pass in Hp as (_ & Hd0 & _).
    unfold logReceived in Hb.
    destruct (field d0 "signerAddress") as [[| | |a0| |]|] eqn:Ha0; try done.
    destruct (field d0 "session") as [[| | |s0| |]|] eqn:Hs0; try done.
    simpl in Hb. destruct (timestampCheck _ _ _) as [[]| |]; try done.
    simpl in Hb. injection Hb as <- <- <- <-. done. }
  rewrite <- (Hsame d a s Hd Ha Hs).
  destruct (nonce_differs _ _); simpl; [done|].
  destruct (digestCheck _ _ _ _ _); simpl; [|done..].
  by destruct (signatureCheck _ _ _ _ _).
Qed.

End ValidationEffect.

(** ** The fields of a proof, one by one *)

Section ProofFields.
Variable Date_getTime : option value → time_value.
Variable keccak256 : string → string.
Variable Buffer_from_hex : string → string.
Variable verifyMessage : string → string → option string.

Implicit Types (st : gmap string (gmap string Z)) (a s : string) (n : Z).

Local Abbreviation validate :=
  (validateDeProof Date_getTime keccak256 Buffer_from_hex verifyMessage).
Local Abbreviation succeed :=
  (five_stages_succeed Date_getTime keccak256 Buffer_from_hex verifyMessage).
Local Abbreviation expected := InMemoryNonceStore.getExpectedNonce.
Local Abbreviation advance := InMemoryNonceStore.incrementAndSetNonce.

Lemma prop_delete_replace (m : list (string * value)) k v :
  prop_delete (prop_replace m k v) k = prop_delete m k.
Proof.
  induction m as [|[k0 v0] m IH]; simpl; [done|].
  destruct (decide (k0 = k)) as [->|Hne]; simpl.
  - by rewrite decide_True.
  - by rewrite decide_False, IH.
Qed.

Lemma prop_delete_set (m : list (string * value)) k v w :
  prop_get m k = Some w → prop_delete (prop_set m k v) k = prop_delete m k.
Proof. intros Hk. unfold prop_set. rewrite Hk. apply prop_delete_replace. Qed.

(** What the validator makes of a request from its first two stages
    on, once they have passed. *)
Lemma validate_from_store request t st p d a s :
  presenceCheck request = Pass (p, d) →
  logReceived d = Pass (a, s) →
  timestampCheck Date_getTime d t = Pass tt →
  checks Date_getTime keccak256 Buffer_from_hex verifyMessage request t st
  = ([CallGetExpectedNonce a s],
     checksFromStore keccak256 Buffer_from_hex verifyMessage st p d a s).
Proof.
  intros Hp Hl Ht. unfold checks, checksBeforeStore.
  rewrite Hp. simpl. rewrite Hl. simpl. by rewrite Ht.
Qed.



End ProofFields.

(** ** The counters count acceptances *)

Section Counting.
Variable Date_getTime : option value → time_value.
Variable keccak256 : string → string.
Variable Buffer_from_hex : string → string.
Variable verifyMessage : string → string → option string.

Implicit Types (st : gmap string (gmap string Z)) (a s : string) (n : Z).

Local Abbreviation validate :=
  (validateDeProof Date_getTime keccak256 Buffer_from_hex verifyMessage).
Local Abbreviation succeed :=
  (five_stages_succeed Date_getTime keccak256 Buffer_from_hex verifyMessage).
Local Abbreviation run :=
  (validate_all Date_getTime keccak256 Buffer_from_hex verifyMessage).
Local Abbreviation count :=
  (acceptances Date_getTime keccak256 Buffer_from_hex verifyMessage).
Local Abbreviation expected := InMemoryNonceStore.getExpectedNonce.
Local Abbreviation advance := InMemoryNonceStore.incrementAndSetNonce.

Lemma names_pair_presents request a s n a' s' :
  presents request a s n →
  names_pair request a' s' = bool_decide ((a, s) = (a', s')).
Proof.
  intros (d & Hd & Ha & Hs & _). unfold names_pair. rewrite Hd, Ha, Hs.
  rewrite <- bool_decide_and. apply bool_decide_ext.
  split; [by intros [-> ->]|by intros [= -> ->]].
Qed.

(** One attempt moves the counter of a pair by one when it is accepted
    for that pair, and not at all otherwise. *)
Lemma expected_step request t st a s :
  expected (store_after (validate request t st)) a s
  = (expected st a s
     + match verdict (validate request t st) with
       | None => if names_pair request a s then 1 else 0
       | Some _ => 0
       end)%Z.
Proof.
  destruct (validate_in_memory Date_getTime keccak256 Buffer_from_hex
              verifyMessage request t st)
    as [(a' & s' & n' & Hok & -> & ->)|[[e ->] ->]]; [|lia].
  destruct (succeed_presented Date_getTime keccak256 Buffer_from_hex
              verifyMessage _ _ _ _ _ _ Hok) as [Hp He].
  rewrite (names_pair_presents _ _ _ _ a s Hp).
  destruct (decide ((a', s') = (a, s))) as [[= -> ->]|Hne].
  - rewrite bool_decide_eq_true_2 by done.
    rewrite getExpectedNonce_increment. lia.
  - rewrite bool_decide_eq_false_2 by done.
    rewrite getExpectedNonce_increment_ne by done. lia.
Qed.


End Counting.

(** ** The dispatcher of the server *)

Section DispatcherFacts.
Context {R : Type}.
Variable Date_getTime : option value → time_value.
Variable keccak256 : string → string.
Variable Buffer_from_hex : string → string.
Variable verifyMessage : string → string → option string.

Implicit Types (st : gmap string (gmap string Z)) (a s : string) (n : Z).
Implicit Types (handler : list (string * value) → WeatherServer.HandlerOutcome R).

Local Abbreviation validate :=
  (validateDeProof Date_getTime keccak256 Buffer_from_hex verifyMessage).
Local Abbreviation succeed :=
  (five_stages_succeed Date_getTime keccak256 Buffer_from_hex verifyMessage).
Local Abbreviation dispatch :=
  (WeatherServer.withDeProofValidation Date_getTime keccak256
     Buffer_from_hex verifyMessage).
Local Abbreviation expected := InMemoryNonceStore.getExpectedNonce.
Local Abbreviation advance := InMemoryNonceStore.incrementAndSetNonce.

Lemma dispatch_rejected handler fullParams t st e :
  verdict (validate {| params := fullParams |} t st) = Some e →
  dispatch handler fullParams t st
  = {| WeatherServer.response := WeatherServer.ValidationFailed e;
       WeatherServer.nonceStore_after := st;
       WeatherServer.handler_params := None |}.
Proof.
  intros He. unfold WeatherServer.withDeProofValidation. rewrite He.
  destruct (validate_in_memory Date_getTime keccak256 Buffer_from_hex
              verifyMessage {| params := fullParams |} t st)
    as [(a & s & n & _ & Hn & _)|[_ ->]]; [congruence|done].
Qed.

Lemma dispatch_accepted handler fullParams t st a s n :
  succeed {| params := fullParams |} t st a s n →
  ∃ props,
    fullParams = VObj props ∧
    dispatch handler fullParams t st
    = {| WeatherServer.response :=
           reply_of (handler (prop_delete props "_deProof"));
         WeatherServer.nonceStore_after := advance st a s n;
         WeatherServer.handler_params :=
           Some (prop_delete props "_deProof") |}.
Proof.
  intros Hok. pose proof Hok as (p & d & g & Hp & _).
  apply presenceCheck_Pass in Hp as (Hparams & _). cbn [params] in Hparams.
  exists p. split; [done|].
  unfold WeatherServer.withDeProofValidation.
  rewrite (validate_accepted Date_getTime keccak256 Buffer_from_hex
             verifyMessage _ _ _ _ _ _ Hok).
  cbn [verdict store_after]. rewrite Hparams. done.
Qed.

(** X13. The dispatcher runs the tool only for a call the validator
    has accepted, and then on the parameters of the call without
    [_deProof], every other parameter as it came.  These are the very
    parameters whose canonical text, with the nonce, session and
    timestamp of the proof, has the digest the proof declares.  A call
    the validator turns down gets its rejection for an answer; the
    tool is not run and the store of the server stays as it was. *)
Theorem handler_runs_on_verified_params handler fullParams t st :
  let d := dispatch handler fullParams t st in
  (∀ e, verdict (validate {| params := fullParams |} t st) = Some e →
     WeatherServer.response d = WeatherServer.ValidationFailed e ∧
     WeatherServer.handler_params d = None ∧
     WeatherServer.nonceStore_after d = st) ∧
  (∀ actual,
     WeatherServer.handler_params d = Some actual →
     prop_get actual "_deProof" = None ∧
     (∀ k, k ≠ "_deProof" → prop_get actual k = field fullParams k) ∧
     WeatherServer.response d = reply_of (handler actual) ∧
     ∃ a s n deProof declared,
       presents {| params := fullParams |} a s n ∧
       proof_of {| params := fullParams |} = Some deProof ∧
       field deProof "digest" = Some (VStr declared) ∧
       strip0x (keccak256 (canonicalStringify
         (VObj ([("params", VObj actual); ("nonce", VNum n);
                 ("session", VStr s)]
                ++ literal_prop "timestamp" (field deProof "timestamp")))))
       = strip0x declared ∧
       expected st a s = n ∧
       WeatherServer.nonceStore_after d = advance st a s n).
Proof.
  intros d. subst d. split.
  - intros e He. by rewrite (dispatch_rejected _ _ _ _ _ He).
  - intros actual Hh.
    destruct (validate_in_memory Date_getTime keccak256 Buffer_from_hex
                verifyMessage {| params := fullParams |} t st)
      as [(a & s & n & Hok & _)|[[e He] _]];
      [|by rewrite (dispatch_rejected _ _ _ _ _ He) in Hh].
    destruct (dispatch_accepted handler _ _ _ _ _ _ Hok) as (props & -> & Hd).
    rewrite Hd in Hh |- *. cbn in Hh |- *. injection Hh as <-.
    split; [apply prop_get_delete|].
    split; [intros k Hk; by apply prop_get_delete_other|].
    split; [done|].
    destruct (succeed_presented Date_getTime keccak256 Buffer_from_hex
                verifyMessage _ _ _ _ _ _ Hok) as [Hpres Hexp].
    destruct Hok as (p & dp & g & Hp & _ & _ & _ & Hg & _).
    apply presenceCheck_Pass in Hp as (Hparams & Hdp & _).
    cbn [params] in Hparams. injection Hparams as <-.
    unfold digestCheck in Hg.
    destruct (field dp "digest") as [[| | |declared| |]|] eqn:Hdg; try done.
    destruct (String.eqb _ _) eqn:Heq in Hg; [|done].
    apply String.eqb_eq in Heq.
    exists a, s, n, dp, declared. done.
Qed.


End DispatcherFacts.

(** ** The client's call site *)

Section ClientFacts.
Variable keccak256 : string → string.
Variable Buffer_from_hex : string → string.
Variable wallet : SecureProof.Wallet.

Local Arguments SecureProof.getAndIncNonce : simpl never.

Local Abbreviation prepare :=
  (MCPClient.prepareToolCall keccak256 Buffer_from_hex wallet).
Local Abbreviation generate :=
  (SecureProof.generateDeProof keccak256 Buffer_from_hex).

Lemma prop_delete_idem (m : list (string * value)) k :
  prop_delete (prop_delete m k) k = prop_delete m k.
Proof. apply prop_delete_absent, prop_get_delete. Qed.

Lemma prepare_unfold this fresh now raw args g :
  args = prop_delete (spread raw) "_deProof" →
  g = generate (MCPClient.nonceStore this) fresh now (VObj args) wallet
        (MCPClient.session this) →
  prepare this fresh now raw
  = (args ++ [("_deProof", g.1)],
     {| MCPClient.session := Some (session_in_use this fresh);
        MCPClient.nonceStore := g.2 |}).
Proof.
  intros -> ->. unfold MCPClient.prepareToolCall.
  destruct (generate _ _ _ _ _ _) as [deProof st'].
  rewrite secureArgs_appends.
  cbn [fst snd]. do 2 f_equal. unfold session_in_use.
  destruct (MCPClient.session this) as [x|]; simpl; [|done].
  by destruct (String.eqb x EmptyString).
Qed.

(** X15. What the client sends for a tool call.  A [_deProof] among
    the arguments the model supplied has no effect at all; the
    arguments sent are those of the model, each as it was, followed by
    one [_deProof], which is the proof generated for the arguments
    without it.  The proof names the address of the wallet, the
    session of the client, or the fresh one when it has none yet, and
    the next nonce of that pair, which the call uses up.  From the
    first call on the client has a session, and it never changes. *)
Theorem client_sends_its_own_proof this fresh now raw :
  let args := prop_delete (spread raw) "_deProof" in
  let a := SecureProof.address wallet in
  let s := session_in_use this fresh in
  let n := next_nonce (MCPClient.nonceStore this) a s in
  let sent := (prepare this fresh now raw).1 in
  let this' := (prepare this fresh now raw).2 in
  prepare this fresh now raw = prepare this fresh now (VObj args) ∧
  Object_keys sent = Object_keys args ++ ["_deProof"] ∧
  (∀ k, k ≠ "_deProof" → prop_get sent k = prop_get (spread raw) k) ∧
  prop_get sent "_deProof"
  = Some (generate (MCPClient.nonceStore this) fresh now (VObj args) wallet
            (MCPClient.session this)).1 ∧
  presents {| params := VObj sent |} a s n ∧
  next_nonce (MCPClient.nonceStore this') a s = (n + 1)%Z ∧
  MCPClient.session this' = Some s ∧
  (∀ fresh', session_in_use this' fresh' = s).
Proof.
  intros args a s n sent this'.
  assert (prop_get args "_deProof" = None) as Hargs by apply prop_get_delete.
  pose proof (prepare_unfold this fresh now raw args _ eq_refl eq_refl)
    as Hraw.
  assert (args = prop_delete (spread (VObj args)) "_deProof") as Hidem
    by (cbn [spread]; unfold args; by rewrite prop_delete_idem).
  pose proof (prepare_unfold this fresh now (VObj args) args _ Hidem eq_refl)
    as Hclean.
  pose proof (generateDeProof_fields keccak256 Buffer_from_hex
                (MCPClient.nonceStore this) fresh now (VObj args) wallet
                (MCPClient.session this)) as Hf.
  destruct (generate _ _ _ _ _ _) as [deProof st'] eqn:Hg.
  destruct Hf as (Ha & Hs & Hn & _ & Hst').
  cbn [fst snd] in Hraw, Hclean.
  subst sent this'. rewrite Hclean, Hraw. cbn [fst snd].
  split; [done|]. split.
  { unfold Object_keys. by rewrite map_app. }
  split.
  { intros k Hk. rewrite prop_get_app. unfold args.
    rewrite prop_get_delete_other by done.
    destruct (prop_get (spread raw) k); [done|]. simpl.
    by rewrite decide_False. }
  split; [by apply prop_get_app_absent|].
  split.
  { exists deProof. split; [|done]. unfold proof_of. cbn [params].
    by apply prop_get_app_absent. }
  split.
  { cbn [MCPClient.nonceStore]. rewrite Hst'.
    apply getAndIncNonce_advances. }
  done.
Qed.

End ClientFacts.

(** ** A conversation: client and server, call after call *)

Section ConversationFacts.
Context {R : Type}.
Variable Date_getTime : option value → time_value.
Variable keccak256 : string → string.
Variable Buffer_from_hex : string → string.
Variable verifyMessage : string → string → option string.
Variable wallet : SecureProof.Wallet.
Variable handler : list (string * value) → WeatherServer.HandlerOutcome R.

Implicit Types (server : gmap string (gmap string Z)).
Implicit Types (client : MCPClient.State) (c : Call).

Local Arguments SecureProof.getAndIncNonce : simpl never.

Local Abbreviation a := (SecureProof.address wallet).
Local Abbreviation validate :=
  (validateDeProof Date_getTime keccak256 Buffer_from_hex verifyMessage).
Local Abbreviation dispatch :=
  (WeatherServer.withDeProofValidation Date_getTime keccak256
     Buffer_from_hex verifyMessage handler).
Local Abbreviation prepare :=
  (MCPClient.prepareToolCall keccak256 Buffer_from_hex wallet).
Local Abbreviation talk :=
  (converse Date_getTime keccak256 Buffer_from_hex verifyMessage wallet
     handler).
Local Abbreviation expected := InMemoryNonceStore.getExpectedNonce.
Local Abbreviation advance := InMemoryNonceStore.incrementAndSetNonce.

(** One step of the conversation. *)
Lemma converse_cons c rest client server :
  talk (c :: rest) client server
  = let p := prepare client (call_fresh c) (call_now c) (call_args c) in
    let d := dispatch (VObj p.1) (call_received c) server in
    let r := talk rest p.2 (WeatherServer.nonceStore_after d) in
    (d :: r.1.1, r.1.2, r.2).
Proof.
  cbn [converse].
  destruct (prepare _ _ _ _) as [sent client']. cbn [fst snd].
  by destruct (talk rest client' _) as [[ds client''] server''].
Qed.

(** What the client is left with after a call. *)
Lemma prepare_client client fresh now raw :
  let s := session_in_use client fresh in
  let client' := (prepare client fresh now raw).2 in
  MCPClient.session client' = Some s ∧
  next_nonce (MCPClient.nonceStore client') a s
  = (next_nonce (MCPClient.nonceStore client) a s + 1)%Z ∧
  (∀ s', s' ≠ s →
     next_nonce (MCPClient.nonceStore client') a s'
     = next_nonce (MCPClient.nonceStore client) a s') ∧
  presents {| params := VObj (prepare client fresh now raw).1 |} a s
    (next_nonce (MCPClient.nonceStore client) a s).
Proof.
  intros s client'. subst client'.
  rewrite (prepare_unfold keccak256 Buffer_from_hex wallet client fresh now
             raw _ _ eq_refl eq_refl).
  pose proof (generateDeProof_fields keccak256 Buffer_from_hex
                (MCPClient.nonceStore client) fresh now
                (VObj (prop_delete (spread raw) "_deProof")) wallet
                (MCPClient.session client)) as Hf.
  destruct (SecureProof.generateDeProof _ _ _ _ _ _ _ _) as [deProof st'].
  destruct Hf as (Ha & Hs & Hn & _ & Hst'). cbn [fst snd].
  cbn [MCPClient.session MCPClient.nonceStore]. rewrite Hst'.
  split; [done|]. split; [apply getAndIncNonce_advances|].
  split.
  { intros s' Hne. apply getAndIncNonce_other.
    intros [= Heq]. apply Hne. by rewrite <- Heq. }
  exists deProof. split; [|done]. unfold proof_of. cbn [params].
  apply prop_get_app_absent, prop_get_delete.
Qed.

(** A call made and received in step is dispatched to the tool. *)
Lemma call_in_step_dispatched c client server :
  digest_unprefixed keccak256 →
  signature_recovers verifyMessage wallet →
  timely Date_getTime c →
  let s := session_in_use client (call_fresh c) in
  let n := next_nonce (MCPClient.nonceStore client) a s in
  expected server a s = n →
  dispatch (VObj (prepare client (call_fresh c) (call_now c)
                    (call_args c)).1) (call_received c) server
  = {| WeatherServer.response := reply_of (handler (cleaned c));
       WeatherServer.nonceStore_after := advance server a s n;
       WeatherServer.handler_params := Some (cleaned c) |}.
Proof.
  intros Hdig Hsig (t & Ht & Hwin) s n Hexp.
  pose proof (generated_proof_accepted Date_getTime keccak256
                Buffer_from_hex verifyMessage
                (MCPClient.nonceStore client) server (call_fresh c)
                (call_now c) (spread (call_args c)) wallet
                (MCPClient.session client) (call_received c) t) as Hacc.
  cbv zeta in Hacc.
  specialize (Hacc Ht Hwin Hexp (Hdig _) (Hsig _)).
  rewrite (prepare_unfold keccak256 Buffer_from_hex wallet client _ _ _
             _ _ eq_refl eq_refl).
  cbn [fst]. rewrite secureArgs_appends in Hacc.
  unfold WeatherServer.withDeProofValidation. rewrite Hacc.
  cbn [verdict store_after spread].
  rewrite prop_delete_app_absent by apply prop_get_delete.
  done.
Qed.


(** Once the server is behind the client for the session, it stays
    behind. *)
Lemma gap_persists calls client server s :
  MCPClient.session client = Some s →
  (expected server a s < next_nonce (MCPClient.nonceStore client) a s)%Z →
  let r := talk calls client server in
  r.2 = server ∧ Forall turned_down r.1.1.
Proof.
  revert client. induction calls as [|c rest IH]; intros client Hs Hgap r.
  { subst r. cbn. split; [done|constructor]. }
  subst r. rewrite converse_cons. cbv zeta. cbn [fst snd].
  destruct (prepare_client client (call_fresh c) (call_now c) (call_args c))
    as (Hsess & Hadv & _ & Hpres).
  assert (session_in_use client (call_fresh c) = s) as Hsame
    by (unfold session_in_use; by rewrite Hs).
  rewrite Hsame in Hsess, Hadv, Hpres.
  destruct (validate_stale Date_getTime keccak256 Buffer_from_hex
              verifyMessage _ (call_received c) server a s _ Hpres)
    as (dp & _ & _ & Hv); [lia|].
  assert (∃ e, verdict (validate
                 {| params := VObj (prepare client (call_fresh c)
                                      (call_now c) (call_args c)).1 |}
                 (call_received c) server) = Some e ∧
               (e = TimestampOutOfRange ∨
                ∃ n m, e = NonceMismatch (Some (VNum n)) m))
    as (e & He & Hkind).
  { rewrite Hv. destruct (timestampCheck _ _ _); eauto 7. }
  rewrite (dispatch_rejected Date_getTime keccak256 Buffer_from_hex
             verifyMessage handler _ _ _ _ He).
  cbn [WeatherServer.nonceStore_after].
  destruct (IH _ Hsess) as [Hserver Hall]; [lia|].
  split; [done|]. constructor; [|done].
  split; [done|]. by exists e.
Qed.


End ConversationFacts.

(** ** The hosts of the worked examples *)

Section ConcreteHosts.
Local Open Scope Z_scope.

Lemma sixteen_cases (P : Z → Prop) :
  P 0 → P 1 → P 2 → P 3 → P 4 → P 5 → P 6 → P 7 →
  P 8 → P 9 → P 10 → P 11 → P 12 → P 13 → P 14 → P 15 →
  ∀ r, 0 ≤ r < 16 → P r.
Proof.
  intros. 
  assert (r = 0 ∨ r = 1 ∨ r = 2 ∨ r = 3 ∨ r = 4 ∨ r = 5 ∨ r = 6 ∨ r = 7 ∨
          r = 8 ∨ r = 9 ∨ r = 10 ∨ r = 11 ∨ r = 12 ∨ r = 13 ∨ r = 14 ∨
          r = 15) as Hr by lia.
  repeat (destruct Hr as [->|Hr]; [assumption|]). by subst.
Qed.

Lemma digit_not_x r : 0 ≤ r < 16 → Ascii.eqb "x" (Hex.digit r) = false.
Proof. revert r. by apply sixteen_cases. Qed.

Lemma value_of_digit r : 0 ≤ r < 16 → Hex.value_of (Hex.digit r) = Some r.
Proof. revert r. by apply sixteen_cases. Qed.

(** Hexadecimal text never begins with [0x]. *)
Lemma encode_unprefixed l : startsWith (Hex.encode l) "0x" = false.
Proof.
  destruct l as [|b l]; [done|]. cbn [Hex.encode startsWith].
  rewrite digit_not_x by (apply Z.mod_pos_bound; lia).
  by rewrite andb_false_r.
Qed.

Lemma encode_app l l' :
  Hex.encode (l ++ l') = Hex.encode l +:+ Hex.encode l'.
Proof. induction l as [|b l IH]; [done|]. cbn. by rewrite IH. Qed.

Lemma decode_encode l :
  Forall (λ b, 0 ≤ b < 256) l → Hex.decode (Hex.encode l) = Some l.
Proof.
  induction 1 as [|b l Hb _ IH]; [done|]. cbn [Hex.encode Hex.decode].
  rewrite !value_of_digit, IH.
  - do 2 f_equal. pose proof (Z.div_mod b 16). lia.
  - apply Z.mod_pos_bound. lia.
  - split; [apply Z.div_pos; lia|apply Z.div_lt_upper_bound; lia].
Qed.

Lemma bytes_of_range s : Forall (λ b, 0 ≤ b < 256) (Hex.bytes_of s).
Proof.
  induction s as [|c s IH]; constructor; [|done].
  pose proof (N_ascii_bounded c). lia.
Qed.

Lemma text_of_bytes_of s : Signer.text_of (Hex.bytes_of s) = s.
Proof.
  induction s as [|c s IH]; [done|]. cbn. 
  by rewrite N2Z.id, ascii_N_embedding, IH.
Qed.

Lemma length_bytes_of s : length (Hex.bytes_of s) = String.length s.
Proof. induction s as [|c s IH]; [done|]. cbn. by rewrite IH. Qed.

Lemma startsWith_prefixed x : startsWith ("0x" +:+ x) "0x" = true.
Proof. by destruct x. Qed.

Lemma strip0x_prefixed x : strip0x ("0x" +:+ x) = x.
Proof. unfold strip0x. by rewrite startsWith_prefixed. Qed.

(** The digest the library prints has its one [0x] in front. *)
Lemma Keccak_unprefixed : digest_unprefixed Keccak.keccak256.
Proof.
  intros text. unfold Keccak.keccak256. rewrite strip0x_prefixed.
  apply encode_unprefixed.
Qed.

(** The signatures of the examples give the signer back as it is
    written. *)
Lemma Signer_recovers address :
  signature_recovers Signer.verifyMessage (Signer.wallet address).
Proof.
  intros message. exists address. split; [|done].
  cbn [SecureProof.signMessage Signer.wallet]. unfold Signer.sign.
  rewrite strip0x_prefixed, <- encode_app, encode_unprefixed.
  unfold Signer.verifyMessage.
  rewrite startsWith_prefixed.
  change (slice2 ("0x" +:+ ?x)) with x. cbn [negb].
  rewrite decode_encode
    by (apply Forall_app; split; apply bytes_of_range).
  assert ((length (Hex.bytes_of address ++ Hex.bytes_of message)
           - String.length message)%nat
          = length (Hex.bytes_of address)) as ->
    by (rewrite length_app, !length_bytes_of; lia).
  rewrite drop_app_length, take_app_length, !text_of_bytes_of.
  rewrite decide_True; [done|]. split; [|done].
  rewrite length_app, !length_bytes_of. lia.
Qed.

End ConcreteHosts.

(** ** The alerts tool *)

Section AlertsTool.
Variable toUpperCase : string → string.
Variable makeNWSRequest : string → value.

Local Abbreviation getAlerts :=
  (WeatherServer.getAlerts toUpperCase makeNWSRequest).

(** [formatAlert] throws on an entry without properties, and on no
    other. *)
Lemma formatAlert_None feature :
  WeatherServer.formatAlert feature = None ↔
  field feature "properties" = None ∨
  field feature "properties" = Some VNull.
Proof.
  unfold WeatherServer.formatAlert.
  destruct feature as [|b|n|x|l|props]; simpl; try (split; [auto|done]).
  destruct (prop_get props "properties") as [[]|]; simpl;
    split; try done; auto; intros [|]; done.
Qed.

Lemma mapM_formatAlert_None features :
  mapM WeatherServer.formatAlert features = None ↔
  Exists (λ f, field f "properties" = None ∨
               field f "properties" = Some VNull) features.
Proof.
  induction features as [|f features IH].
  - split; [done|]. by intros ?%Exists_nil.
  - rewrite Exists_cons, <- IH, <- formatAlert_None. cbn.
    destruct (WeatherServer.formatAlert f) as [y|]; cbn.
    + destruct (mapM WeatherServer.formatAlert features); cbn.
      * split; [done|]. by intros [|].
      * split; [by right|done].
    + split; [by left|done].
Qed.


End AlertsTool.

(** ** The canonical text determines the tree *)

Section ReadingBack.
Import Reading.

Lemma append_cons_s (x : ascii) (a b : string) :
  String x a +:+ b = String x (a +:+ b).
Proof. done. Qed.

Lemma append_nil_s (b : string) : "" +:+ b = b.
Proof. done. Qed.

Lemma append_assoc_s (a b c : string) : (a +:+ b) +:+ c = a +:+ (b +:+ c).
Proof.
  induction a as [|x a IH]; [done|]. by rewrite !append_cons_s, IH.
Qed.

Local Ltac flatten :=
  repeat first [rewrite append_assoc_s | rewrite append_cons_s
               | rewrite append_nil_s].
Local Ltac flatten_in H :=
  repeat first [rewrite append_assoc_s in H | rewrite append_cons_s in H
               | rewrite append_nil_s in H].

(** *** Numbers *)

Lemma pretty_N_char_digit x :
  (x < 10)%N → is_digit (pretty_N_char x) = true.
Proof.
  intros Hx.
  assert (x = 0 ∨ x = 1 ∨ x = 2 ∨ x = 3 ∨ x = 4 ∨ x = 5 ∨ x = 6 ∨ x = 7
          ∨ x = 8 ∨ x = 9)%N as Hc by lia.
  repeat (destruct Hc as [->|Hc]; [done|]). by subst.
Qed.

Lemma all_digits_app d d' :
  all_digits (d +:+ d') = all_digits d && all_digits d'.
Proof.
  induction d as [|c d IH]; [done|].
  rewrite append_cons_s. cbn. by rewrite IH, andb_assoc.
Qed.

Lemma append_nil_r_s (a : string) : a +:+ "" = a.
Proof.
  induction a as [|x a IH]; [done|]. by rewrite append_cons_s, IH.
Qed.

Lemma pretty_N_go_digits x s :
  ∃ d, pretty_N_go x s = d +:+ s ∧ all_digits d = true ∧
       ((0 < x)%N → d ≠ "").
Proof.
  revert s. induction (N.lt_wf_0 x) as [x _ IH]; intros s.
  assert (x = 0 ∨ 0 < x)%N as [->|Hpos] by lia.
  - exists "". rewrite pretty_N_go_0. split; [done|]. split; [done|lia].
  - rewrite pretty_N_go_step by done.
    destruct (IH (x `div` 10)%N (N.div_lt x 10 Hpos eq_refl)
                (String (pretty_N_char (x `mod` 10)) s))
      as (d & -> & Hd & _).
    exists (d +:+ String (pretty_N_char (x `mod` 10)) "").
    split; [by rewrite append_assoc_s|]. split.
    + rewrite all_digits_app, Hd. cbn.
      rewrite pretty_N_char_digit; [done|]. by apply N.mod_lt.
    + intros _. by destruct d.
Qed.

(** The text of a number: a sign or none, and digits. *)
Lemma pretty_Z_digits (n : Z) :
  ∃ sign d, pretty n = sign +:+ d ∧ (sign = "" ∨ sign = "-") ∧
            all_digits d = true ∧ d ≠ "".
Proof.
  assert (∀ p, ∃ d, pretty (N.pos p) = d ∧ all_digits d = true ∧ d ≠ "")
    as Hpos.
  { intros p. unfold pretty, pretty_N. rewrite decide_False by done.
    destruct (pretty_N_go_digits (N.pos p) "") as (d & -> & Hd & Hne).
    exists d. split; [apply append_nil_r_s|].
    split; [done|apply Hne; lia]. }
  destruct n as [|p|p]; cbn.
  - exists "", "0". by repeat split; auto.
  - destruct (Hpos p) as (d & Hd & Hall & Hne).
    exists "", d. change (pretty p) with (pretty (N.pos p)). rewrite Hd.
    by repeat split; auto.
  - destruct (Hpos p) as (d & Hd & Hall & Hne).
    exists "-", d. change (pretty p) with (pretty (N.pos p)). rewrite Hd.
    by repeat split; auto.
Qed.

Lemma digits_split d d' r r' :
  all_digits d = true → all_digits d' = true →
  closes r = true → closes r' = true →
  d +:+ r = d' +:+ r' → d = d' ∧ r = r'.
Proof.
  revert d'. induction d as [|c d IH]; intros [|c' d'] Hd Hd' Hr Hr';
    flatten; intros Heq.
  - done.
  - subst r. cbn in Hr, Hd'. apply andb_true_iff in Hd' as [Hc _].
    by rewrite Hc in Hr.
  - subst r'. cbn in Hr', Hd. apply andb_true_iff in Hd as [Hc _].
    by rewrite Hc in Hr'.
  - injection Heq as -> Heq. cbn in Hd, Hd'.
    apply andb_true_iff in Hd as [_ Hd].
    apply andb_true_iff in Hd' as [_ Hd'].
    destruct (IH d' Hd Hd' Hr Hr' Heq) as [-> ->]. done.
Qed.

Lemma number_read (n m : Z) r r' :
  closes r = true → closes r' = true →
  pretty n +:+ r = pretty m +:+ r' → n = m ∧ r = r'.
Proof.
  intros Hr Hr' Heq.
  destruct (pretty_Z_digits n) as (sg & d & Hn & Hsg & Hd & Hne).
  destruct (pretty_Z_digits m) as (sg' & d' & Hm & Hsg' & Hd' & Hne').
  rewrite Hn, Hm, !append_assoc_s in Heq.
  assert (sg = sg' ∧ d +:+ r = d' +:+ r') as [-> Hrest].
  { destruct Hsg as [->| ->], Hsg' as [->| ->]; flatten_in Heq.
    - done.
    - destruct d as [|c d]; [done|]. flatten_in Heq.
      injection Heq as -> _. cbn in Hd. done.
    - destruct d' as [|c d']; [done|]. flatten_in Heq.
      injection Heq as <- _. cbn in Hd'. done.
    - by injection Heq as ->. }
  destruct (digits_split d d' r r' Hd Hd' Hr Hr' Hrest) as [-> ->].
  split; [|done]. apply (inj pretty). by rewrite Hn, Hm.
Qed.

(** *** Strings *)

Lemma unescape_escape c x : unescape (json_escape c +:+ x) = Some (c, x).
Proof.
  destruct c as [[] [] [] [] [] [] [] []]; reflexivity.
Qed.

Lemma escaped_read s s' r r' :
  json_escape_all s +:+ String dquote r
  = json_escape_all s' +:+ String dquote r' →
  s = s' ∧ r = r'.
Proof.
  revert s'. induction s as [|c s IH]; intros [|c' s'];
    cbn [json_escape_all]; flatten; intros Heq.
  - by injection Heq as ->.
  - apply (f_equal unescape) in Heq.
    by rewrite unescape_escape in Heq.
  - apply (f_equal unescape) in Heq.
    by rewrite unescape_escape in Heq.
  - 
    pose proof (f_equal unescape Heq) as Hu.
    rewrite !unescape_escape in Hu. injection Hu as -> Hrest.
    by destruct (IH s' Hrest) as [-> ->].
Qed.

Lemma quoted_read s s' r r' :
  json_quote s +:+ r = json_quote s' +:+ r' → s = s' ∧ r = r'.
Proof.
  unfold json_quote. flatten. intros [= Heq]. by apply escaped_read.
Qed.

(** *** Values *)

Lemma stringify_opens v r :
  ∃ c t, JSON_stringify v +:+ r = String c t ∧ opens v c = true.
Proof.
  destruct v as [|[]|n|s|elems|props]; cbn [JSON_stringify];
    try (unfold json_quote; flatten; by eexists _, _).
  destruct (pretty_Z_digits n) as (sg & d & -> & [->| ->] & Hd & Hne).
  - destruct d as [|c d]; [done|]. exists c, (d +:+ r).
    split; [by flatten|].
    cbn in Hd. apply andb_true_iff in Hd as [Hc _]. cbn. by rewrite Hc.
  - flatten. eexists _, _. split; [done|]. cbn. by rewrite orb_true_r.
Qed.

(** Values of two kinds do not open alike. *)
Lemma opens_kind v v' c :
  opens v c = true → opens v' c = true →
  match v, v' with
  | VNull, VNull | VNum _, VNum _ | VStr _, VStr _
  | VArr _, VArr _ | VObj _, VObj _ => True
  | VBool b, VBool b' => b = b'
  | _, _ => False
  end.
Proof.
  destruct v as [|[]|n|s|elems|props], v' as [|[]|n'|s'|elems'|props'];
    cbn; try done;
    intros H1 H2;
    try (apply Ascii.eqb_eq in H1; subst c; by cbn in H2);
    try (apply Ascii.eqb_eq in H2; subst c; by cbn in H1).
Qed.

Lemma listed_concat texts k :
  String.concat "," texts +:+ k = listed texts k.
Proof.
  destruct texts as [|t texts]; [done|]. cbn [listed].
  revert t. induction texts as [|t' texts IH]; intros t; [done|].
  change (String.concat "," (t :: t' :: texts))
    with (t +:+ "," +:+ String.concat "," (t' :: texts)).
  rewrite !append_assoc_s, IH. done.
Qed.

(** *** Lists of texts *)

Section Items.
Context {A : Type} (text : A → string).

Local Abbreviation item_read x :=
  (∀ x' r r',
     closes r = true → closes r' = true →
     text x +:+ r = text x' +:+ r' → x = x' ∧ r = r').

Hypothesis item_opens :
  ∀ x r, ∃ c t, text x +:+ r = String c t ∧ ¬ closer c.

Lemma following_closes (l : list A) c r :
  closer c → closes (following (map text l) (String c r)) = true.
Proof. intros [->| ->]; by destruct l. Qed.

Lemma following_read (l l' : list A) c c' r r' :
  closer c → closer c' → Forall (λ x, item_read x) l →
  following (map text l) (String c r)
  = following (map text l') (String c' r') →
  l = l' ∧ String c r = String c' r'.
Proof.
  intros Hc Hc' Hall. revert l'.
  induction Hall as [|x l Hx _ IH]; intros [|x' l'];
    cbn [map following]; flatten; intros Heq.
  - done.
  - injection Heq as -> _. by destruct Hc.
  - injection Heq as <- _. by destruct Hc'.
  - injection Heq as Heq.
    destruct (Hx x' _ _ (following_closes l c r Hc)
                (following_closes l' c' r' Hc') Heq) as [-> Hrest].
    by destruct (IH l' Hrest) as [-> ->].
Qed.

Lemma listed_read (l l' : list A) c c' r r' :
  closer c → closer c' → Forall (λ x, item_read x) l →
  listed (map text l) (String c r) = listed (map text l') (String c' r') →
  l = l' ∧ String c r = String c' r'.
Proof.
  intros Hc Hc' Hall.
  destruct Hall as [|x l Hx Hall], l' as [|x' l'];
    cbn [map listed]; intros Heq.
  - done.
  - destruct (item_opens x' (following (map text l') (String c' r')))
      as (h & t & Hh & Hno).
    rewrite Hh in Heq. injection Heq as -> _. done.
  - destruct (item_opens x (following (map text l) (String c r)))
      as (h & t & Hh & Hno).
    rewrite Hh in Heq. injection Heq as <- _. done.
  - destruct (Hx x' _ _ (following_closes l c r Hc)
                (following_closes l' c' r' Hc') Heq) as [-> Hrest].
    by destruct (following_read l l' c c' r r' Hc Hc' Hall Hrest)
      as [-> ->].
Qed.
End Items.

(** *** Values *)

Lemma value_opens v r :
  ∃ c t, JSON_stringify v +:+ r = String c t ∧ ¬ closer c.
Proof.
  destruct (stringify_opens v r) as (c & t & Heq & Ho).
  exists c, t. split; [done|].
  intros [->| ->]; by destruct v as [|[]|n|s|elems|props].
Qed.

Lemma member_opens kv r :
  ∃ c t, member kv +:+ r = String c t ∧ ¬ closer c.
Proof.
  unfold member, json_quote. flatten. eexists _, _. split; [done|].
  by intros [|].
Qed.

Lemma member_read kv :
  read_back kv.2 →
  ∀ kv' r r',
    closes r = true → closes r' = true →
    member kv +:+ r = member kv' +:+ r' → kv = kv' ∧ r = r'.
Proof.
  intros Hv [k' v'] r r' Hr Hr'. destruct kv as [k v]. unfold member.
  cbn [fst snd] in *. rewrite !append_assoc_s. intros Heq.
  apply quoted_read in Heq as [-> Heq]. flatten_in Heq.
  injection Heq as Heq.
  by destruct (Hv v' r r' Hr Hr' Heq) as [-> ->].
Qed.

(** The text of a value, in front of what may follow a value, is the
    text of that value only. *)
Lemma stringify_read v : read_back v.
Proof.
  induction v as [|b|n|s|elems IH|props IH] using value_tree_ind;
    intros v' r r' Hr Hr' Heq.
  all: match type of Heq with
       | JSON_stringify ?v +:+ _ = _ =>
           destruct (stringify_opens v r) as (c & t & Hc & Ho)
       end;
    destruct (stringify_opens v' r') as (c' & t' & Hc' & Ho');
    pose proof Heq as Hhead; rewrite Hc, Hc' in Hhead;
    injection Hhead as <- _;
    pose proof (opens_kind _ _ _ Ho Ho') as Hkind; clear Hc Hc' Ho Ho' t t' c.
  - destruct v'; try done. cbn [JSON_stringify] in Heq. flatten_in Heq.
    by injection Heq as ->.
  - destruct v' as [|b'| | | |]; try done. subst b'.
    destruct b; cbn [JSON_stringify] in Heq; flatten_in Heq;
      by injection Heq as ->.
  - destruct v' as [| |n'| | |]; try done. cbn [JSON_stringify] in Heq.
    by destruct (number_read n n' r r' Hr Hr' Heq) as [-> ->].
  - destruct v' as [| | |s'| |]; try done. cbn [JSON_stringify] in Heq.
    by destruct (quoted_read s s' r r' Heq) as [-> ->].
  - destruct v' as [| | | |elems'|]; try done.
    cbn [JSON_stringify] in Heq. flatten_in Heq. injection Heq as Heq.
    rewrite !listed_concat in Heq.
    destruct (listed_read JSON_stringify value_opens elems elems'
                "]" "]" r r') as [-> [= ->]];
      [by left|by left|exact IH|exact Heq|done].
  - destruct v' as [| | | | |props']; try done.
    cbn [JSON_stringify] in Heq. flatten_in Heq. injection Heq as Heq.
    rewrite !listed_concat in Heq.
    destruct (listed_read member member_opens props props'
                "}" "}" r r') as [-> [= ->]];
      [by right|by right| |exact Heq|done].
    eapply Forall_impl; [exact IH|]. intros kv Hkv. by apply member_read.
Qed.

Lemma JSON_stringify_inj v v' :
  JSON_stringify v = JSON_stringify v' → v = v'.
Proof.
  intros Heq.
  destruct (stringify_read v v' "" "" eq_refl eq_refl) as [-> _];
    [by rewrite !append_nil_r_s|done].
Qed.

(** *** Trees up to the order of their members *)

Lemma reordered_sym v w : reordered v w → reordered w v.
Proof.
  induction 1 as [| | | | |x y xs ys _ IHx _ IHxs|m n Hnd Hperm Hval IH];
    try by constructor.
  constructor.
  - by rewrite <- Hperm.
  - done.
  - intros k v w Hv Hw. by apply (IH k w v).
Qed.

Lemma reordered_trans u v w : reordered u v → reordered v w → reordered u w.
Proof.
  intros Huv. revert w.
  induction Huv as [| | | | |x y xs ys _ IHx _ IHxs|m n Hnd Hperm Hval IH];
    intros w Hvw; try done.
  - inversion Hvw; subst. constructor; auto.
  - inversion Hvw as [| | | | | |n' o Hnd' Hperm' Hval']; subst.
    constructor; [done|by etrans|].
    intros k v w Hv Hw.
    assert (k ∈ Object_keys n) as Hin.
    { rewrite <- Hperm. by eapply prop_get_Some_elem. }
    destruct (prop_get_elem n k Hin) as [x Hx].
    apply (IH k v x Hv Hx). by apply (Hval' k x w).
Qed.

Lemma same_text_same_tree (v1 v2 : value) :
  well_formed v1 → well_formed v2 →
  SecureProof.canonicalStringify v1 = SecureProof.canonicalStringify v2 →
  reordered v1 v2.
Proof.
  intros Hwf1 Hwf2 Heq. apply JSON_stringify_inj in Heq.
  destruct (sorted_same_tree v1 Hwf1) as [_ H1].
  destruct (sorted_same_tree v2 Hwf2) as [_ H2].
  rewrite Heq in H1.
  eapply reordered_trans; [exact H1|]. by apply reordered_sym.
Qed.


End ReadingBack.

(** ** The digest binds the request *)

Section Binding.
Variable keccak256 : string → string.

Lemma well_formed_field d k w :
  well_formed d → field d k = Some w → well_formed w.
Proof.
  destruct d as [| | | | |props]; try done.
  intros [Hnd Hwf]%well_formed_obj Hk. cbn in Hk.
  apply prop_get_entry in Hk. rewrite Forall_forall in Hwf.
  apply (Hwf (k, w) Hk).
Qed.

Lemma keys_delete_sublist (m : list (string * value)) k :
  Object_keys (prop_delete m k) `sublist_of` Object_keys m.
Proof.
  induction m as [|[k0 v0] m IH]; cbn; [done|].
  case_decide; cbn; [by apply sublist_cons|by apply sublist_skip].
Qed.

Lemma well_formed_delete m k :
  well_formed (VObj m) → well_formed (VObj (prop_delete m k)).
Proof.
  intros [Hnd Hwf]%well_formed_obj. apply well_formed_obj. split.
  - eapply sublist_NoDup; [done|apply keys_delete_sublist].
  - clear Hnd. induction Hwf as [|[k0 v0] m Hv _ IH]; cbn; [done|].
    case_decide; [done|]. by constructor.
Qed.

(** The object the validator digests. *)
Lemma envelope_well_formed actual d n s :
  well_formed (VObj actual) → well_formed d →
  well_formed
    (VObj ([("params", VObj actual); ("nonce", VNum n); ("session", VStr s)]
           ++ literal_prop "timestamp" (field d "timestamp"))).
Proof.
  intros Ha Hd. apply well_formed_obj.
  destruct (field d "timestamp") as [w|] eqn:Hw; cbn [literal_prop app].
  - split; [apply (bool_decide_unpack _); by vm_compute|].
    apply Forall_cons; split; [exact Ha|].
    apply Forall_cons; split; [done|].
    apply Forall_cons; split; [done|].
    apply Forall_cons; split; [|constructor].
    by apply (well_formed_field d "timestamp").
  - split; [apply (bool_decide_unpack _); by vm_compute|].
    apply Forall_cons; split; [exact Ha|].
    apply Forall_cons; split; [done|].
    apply Forall_cons; split; [done|constructor].
Qed.


End Binding.

(** ** The worked conversation *)

Section Conversations.

Local Ltac by_computation :=
  cbv zeta; repeat split; vm_compute; reflexivity.

Local Ltac decide_concrete := apply (bool_decide_unpack _); by vm_compute.

Local Abbreviation alice := (SecureProof.address Demo.alice).

Lemma demo_tree_well_formed : well_formed Demo.tree1.
Proof. cbn. repeat split; decide_concrete. Qed.


Lemma sortObjectKeys_idempotent_witness :
  well_formed Demo.tree2 ∧
  SecureProof.sortObjectKeys (SecureProof.sortObjectKeys Demo.tree2)
  = SecureProof.sortObjectKeys Demo.tree2 ∧
  SecureProof.canonicalStringify (SecureProof.sortObjectKeys Demo.tree2)
  = SecureProof.canonicalStringify Demo.tree2.
Proof.
  assert (well_formed Demo.tree2) as Hwf
    by (cbn; repeat split; decide_concrete).
  split; [exact Hwf|]. exact (sortObjectKeys_idempotent Demo.tree2 Hwf).
Defined.

(** The sorted form of the tree: ["9"] before ["10"], both before the
    names. *)
Example sorted_members_of_tree :
  SecureProof.sortObjectKeys Demo.tree1
  = VObj [("filter",
           VObj [("9", VNull); ("10", VBool true); ("limit", VNum 5);
                 ("severity", VArr [VStr "Severe"; VStr "Extreme"])]);
          ("state", VStr "CA")].
Proof. by_computation. Qed.



Lemma demo_succeeds :
  five_stages_succeed ISODate.getTime Keccak.keccak256 Hex.Buffer_from_hex
    Signer.verifyMessage Demo.request Demo.receivedAt ∅ alice
    Demo.session 0.
Proof.
  destruct (validate_in_memory ISODate.getTime Keccak.keccak256
              Hex.Buffer_from_hex Signer.verifyMessage Demo.request
              Demo.receivedAt ∅)
    as [(a & s & n & Hok & _)|[[e He] _]].
  - destruct (succeed_presents _ _ _ _ _ _ _ _ _ _ _ _ _ demo_presents Hok)
      as (-> & -> & -> & _).
    exact Hok.
  - vm_compute in He. discriminate.
Qed.


Lemma second_presents :
  presents {| params := Chat.second |} alice Demo.session 1.
Proof.
  eexists. split; [by_computation|]. repeat split; by_computation.
Qed.


(** What the store holds for another signer does not matter. *)
Lemma verdict_reads_one_counter_witness :
  verdict (Demo.validate Demo.request Demo.receivedAt ∅)
  = verdict (Demo.validate Demo.request Demo.receivedAt Chat.elsewhere).
Proof.
  apply (verdict_reads_one_counter ISODate.getTime Keccak.keccak256
           Hex.Buffer_from_hex Signer.verifyMessage Demo.request
           Demo.receivedAt ∅ Chat.elsewhere).
  intros d a s Hd Ha Hs.
  vm_compute in Hd. injection Hd as <-.
  vm_compute in Ha. injection Ha as <-.
  vm_compute in Hs. injection Hs as <-.
  by_computation.
Defined.



(** The first call at the dispatcher: the tool gets the state alone. *)
Lemma handler_runs_on_verified_params_witness :
  let d := Chat.dispatch Chat.first Demo.receivedAt ∅ in
  WeatherServer.handler_params d = Some [("state", VStr "CA")] ∧
  WeatherServer.response d
  = reply_of (Chat.tool [("state", VStr "CA")]) ∧
  InMemoryNonceStore.getExpectedNonce (WeatherServer.nonceStore_after d)
    alice Demo.session = 1%Z.
Proof.
  intros d.
  assert (WeatherServer.handler_params d = Some [("state", VStr "CA")])
    as Hh by by_computation.
  destruct (handler_runs_on_verified_params ISODate.getTime
              Keccak.keccak256 Hex.Buffer_from_hex Signer.verifyMessage
              Chat.tool Chat.first Demo.receivedAt ∅) as [_ Hrun].
  destruct (Hrun _ Hh) as (_ & _ & Hreply & _).
  split; [exact Hh|]. split; [exact Hreply|]. by_computation.
Defined.


(** The model puts a proof of its own among the arguments. *)
Lemma client_sends_its_own_proof_witness :
  Chat.prepare Chat.newcomer Demo.issuedAt Chat.meddled
  = Chat.prepare Chat.newcomer Demo.issuedAt (VObj [("state", VStr "ca")]) ∧
  Object_keys (Chat.prepare Chat.newcomer Demo.issuedAt Chat.meddled).1
  = ["state"; "_deProof"] ∧
  prop_get (Chat.prepare Chat.newcomer Demo.issuedAt Chat.meddled).1 "state"
  = Some (VStr "ca") ∧
  MCPClient.session (Chat.prepare Chat.newcomer Demo.issuedAt Chat.meddled).2
  = Some Demo.session.
Proof.
  destruct (client_sends_its_own_proof Keccak.keccak256 Hex.Buffer_from_hex
              Demo.alice Chat.newcomer Demo.session Demo.issuedAt
              Chat.meddled) as (Hsame & Hkeys & Hget & _ & _ & _ & Hs & _).
  split; [exact Hsame|]. split; [exact Hkeys|].
  split; [|exact Hs].
  unfold Chat.prepare. rewrite Hget by discriminate. by_computation.
Defined.

Lemma chat_calls_timely : Forall (timely ISODate.getTime) Chat.calls.
Proof.
  repeat constructor; eexists; (split; [by_computation|]);
    unfold TIME_TOLERANCE_SECONDS; by vm_compute.
Qed.

Lemma newcomer_in_step : in_step Chat.newcomer ∅ alice.
Proof. intros s. by_computation. Qed.






End Conversations.
